(** * charmap: table-driven 8-bit codecs

    A shallow embedding of the Go package [charmap] (the facade and registry
    of [charmap.go], the codec tables of ISO-8859-2 and ISO-8859-14) and the
    properties of its conversion engine.

    Conventions of the embedding:
    - a Go [string] is a [string] (a sequence of 8-bit characters), a Go
      [[]byte] is a [list byte], a [byte] is an [ascii];
    - a [rune] (int32) is a [Z];
    - Go maps are [gmap]s; where the code ranges over a map, the iteration
      order, which Go leaves unspecified, is an explicit argument;
    - an [error] result is an [option error], [None] standing for [nil];
    - a [*bytes.Buffer] is the list of the bytes written so far. *)

From Stdlib Require Import ZArith Lia Ascii String.
From stdpp Require Import gmap strings list fin_maps.

Local Open Scope Z_scope.

(** ** Bytes and runes *)

Abbreviation byte := ascii (only parsing).
Abbreviation rune := Z (only parsing).

Definition byte_to_Z (c : byte) : Z := Z.of_N (N_of_ascii c).

(** The conversion [byte(x)] of Go keeps the low eight bits. *)
Definition byte_of_Z (z : Z) : byte := ascii_of_N (Z.to_N (z mod 256)).

(** The value of [byte(x)] as a number. *)
Definition u8 (z : Z) : Z := z mod 256.

(** The conversion [uint32(r)]. *)
Definition uint32 (r : rune) : Z := r mod 2 ^ 32.

(** ** Package unicode/utf8 of the Go library

    [WriteRune] and the [range] clause over a string rest on the UTF-8
    encoder and decoder of the Go library; they are transcribed here from
    [utf8.EncodeRune] and [utf8.DecodeRuneInString]. *)
Module utf8.

Definition RuneError : rune := 0xFFFD.
Definition RuneSelf : Z := 0x80.
Definition MaxRune : rune := 0x10FFFF.
Definition UTFMax : Z := 4.

Definition surrogateMin : Z := 0xD800.
Definition surrogateMax : Z := 0xDFFF.

Definition t1 : Z := 0x00.
Definition tx : Z := 0x80.
Definition t2 : Z := 0xC0.
Definition t3 : Z := 0xE0.
Definition t4 : Z := 0xF0.
Definition t5 : Z := 0xF8.

Definition maskx : Z := 0x3F.
Definition mask2 : Z := 0x1F.
Definition mask3 : Z := 0x0F.
Definition mask4 : Z := 0x07.

Definition rune1Max : Z := 0x7F.
Definition rune2Max : Z := 0x7FF.
Definition rune3Max : Z := 0xFFFF.

Definition locb : Z := 0x80.
Definition hicb : Z := 0xBF.

(** Entries of the table [first]: the size of the sequence a leading byte
    announces in the low three bits, the index of the range accepted for
    the second byte in the high four. *)
Definition xx : Z := 0xF1.
Definition as_ : Z := 0xF0.
Definition s1 : Z := 0x02.
Definition s2 : Z := 0x13.
Definition s3 : Z := 0x03.
Definition s4 : Z := 0x23.
Definition s5 : Z := 0x34.
Definition s6 : Z := 0x04.
Definition s7 : Z := 0x44.

(** The array [first], indexed by a byte value. *)
Definition first (b : Z) : Z :=
  if b <? 0x80 then as_
  else if b <? 0xC2 then xx
  else if b <? 0xE0 then s1
  else if b =? 0xE0 then s2
  else if b <? 0xED then s3
  else if b =? 0xED then s4
  else if b <? 0xF0 then s3
  else if b =? 0xF0 then s5
  else if b <? 0xF4 then s6
  else if b =? 0xF4 then s7
  else xx.

(** The array [acceptRanges]: the [(lo, hi)] of the second byte. *)
Definition acceptRanges (i : Z) : Z * Z :=
  if i =? 0 then (locb, hicb)
  else if i =? 1 then (0xA0, hicb)
  else if i =? 2 then (locb, 0x9F)
  else if i =? 3 then (0x90, hicb)
  else if i =? 4 then (locb, 0x8F)
  else (0, 0).

(** [utf8.EncodeRune]: the bytes written for [r]. *)
Definition EncodeRune (r : rune) : list byte :=
  let i := uint32 r in
  if i <=? rune1Max then
    [byte_of_Z r]
  else if i <=? rune2Max then
    [byte_of_Z (Z.lor t2 (u8 (Z.shiftr r 6)));
     byte_of_Z (Z.lor tx (Z.land (u8 r) maskx))]
  else
    let three (r : rune) :=
      [byte_of_Z (Z.lor t3 (u8 (Z.shiftr r 12)));
       byte_of_Z (Z.lor tx (Z.land (u8 (Z.shiftr r 6)) maskx));
       byte_of_Z (Z.lor tx (Z.land (u8 r) maskx))] in
    if (MaxRune <? i) || ((surrogateMin <=? i) && (i <=? surrogateMax)) then
      three RuneError
    else if i <=? rune3Max then
      three r
    else
      [byte_of_Z (Z.lor t4 (u8 (Z.shiftr r 18)));
       byte_of_Z (Z.lor tx (Z.land (u8 (Z.shiftr r 12)) maskx));
       byte_of_Z (Z.lor tx (Z.land (u8 (Z.shiftr r 6)) maskx));
       byte_of_Z (Z.lor tx (Z.land (u8 r) maskx))].

(** [utf8.DecodeRuneInString]: the first rune of [s] and its width in
    bytes; [(RuneError, 1)] on an invalid or truncated sequence and
    [(RuneError, 0)] on the empty string. *)
Definition DecodeRune (s : list byte) : rune * nat :=
  match s with
  | [] => (RuneError, 0%nat)
  | c0 :: t =>
    let s0 := byte_to_Z c0 in
    let x := first s0 in
    if as_ <=? x then
      (* the mask of the source is all ones exactly when the low bit of
         [x] is set, that is for [xx] *)
      (if Z.testbit x 0 then RuneError else s0, 1%nat)
    else
      let sz := Z.land x 7 in
      let accept := acceptRanges (Z.shiftr x 4) in
      if Z.of_nat (length s) <? sz then (RuneError, 1%nat)
      else
        match t with
        | [] => (RuneError, 1%nat)
        | c1 :: t =>
          let b1 := byte_to_Z c1 in
          if (b1 <? accept.1) || (accept.2 <? b1) then (RuneError, 1%nat)
          else if sz <=? 2 then
            (Z.lor (Z.shiftl (Z.land s0 mask2) 6) (Z.land b1 maskx), 2%nat)
          else
            match t with
            | [] => (RuneError, 1%nat)
            | c2 :: t =>
              let b2 := byte_to_Z c2 in
              if (b2 <? locb) || (hicb <? b2) then (RuneError, 1%nat)
              else if sz <=? 3 then
                (Z.lor (Z.lor (Z.shiftl (Z.land s0 mask3) 12)
                              (Z.shiftl (Z.land b1 maskx) 6))
                       (Z.land b2 maskx), 3%nat)
              else
                match t with
                | [] => (RuneError, 1%nat)
                | c3 :: _ =>
                  let b3 := byte_to_Z c3 in
                  if (b3 <? locb) || (hicb <? b3) then (RuneError, 1%nat)
                  else
                    (Z.lor (Z.lor (Z.lor (Z.shiftl (Z.land s0 mask4) 18)
                                         (Z.shiftl (Z.land b1 maskx) 12))
                                  (Z.shiftl (Z.land b2 maskx) 6))
                           (Z.land b3 maskx), 4%nat)
                end
            end
        end
  end.

(** A rune that [EncodeRune] writes as itself: a Unicode scalar value. *)
Definition ValidRune (r : rune) : bool :=
  ((0 <=? r) && (r <? surrogateMin)) || ((surrogateMax <? r) && (r <=? MaxRune)).

End utf8.

(** ** The [range] clause over a string

    [for _, r := range data] decodes one rune at each step and advances by
    its width; an invalid sequence yields [RuneError] and advances a single
    byte.  Every step consumes at least one byte, so the length of the
    string is fuel enough. *)
Fixpoint range_steps (fuel : nat) (s : list byte) : list (rune * nat) :=
  match fuel, s with
  | S fuel, _ :: _ =>
    let step := utf8.DecodeRune s in
    step :: range_steps fuel (drop step.2 s)
  | _, _ => []
  end.

(** The runes of the iteration, each with the width it was decoded from. *)
Definition range_string_steps (data : string) : list (rune * nat) :=
  let s := list_ascii_of_string data in range_steps (length s) s.

(** The runes a [range] loop over [data] binds, in order. *)
Definition range_string (data : string) : list rune :=
  (range_string_steps data).*1.

(** [utf8.RuneCountInString]. *)
Definition RuneCountInString (data : string) : nat :=
  length (range_string data).

(** [utf8.ValidString]: no step of the iteration is an invalid byte. *)
Definition ValidString (data : string) : bool :=
  forallb (λ step : rune * nat, negb ((step.1 =? utf8.RuneError) && (step.2 =? 1)%nat))
          (range_string_steps data).

(** ** Package bytes: the growable buffer *)

Abbreviation Buffer := (list byte) (only parsing).

(** [bytes.NewBuffer(buf)]: a buffer whose contents are [buf]. *)
Definition NewBuffer (buf : list byte) : Buffer := buf.

Definition WriteByte (b : Buffer) (c : byte) : Buffer := b ++ [c].

(** [WriteRune] writes a rune below [RuneSelf] as one byte and any other
    through the UTF-8 encoder. *)
Definition WriteRune (b : Buffer) (r : rune) : Buffer :=
  if uint32 r <? utf8.RuneSelf then WriteByte b (byte_of_Z r)
  else b ++ utf8.EncodeRune r.

(** The method [String] of a buffer. *)
Definition Buffer_String (b : Buffer) : string := string_of_list_ascii b.

(** ** charmap.go: errors, codecs and the conversion loops *)

Inductive error : Set :=
  | ErrUnknownEncoding
  | ErrInvalidCodepoint.

#[global] Instance error_eq_dec : EqDecision error.
Proof. solve_decision. Defined.

(** The interface [codec]. *)
Class codec (T : Type) := {
  codec_Encode : T → string → string * option error;
  codec_Decode : T → string → string * option error;
  codec_EncodeToBuffer : T → list byte → Buffer * option error;
  codec_DecodeToBuffer : T → list byte → Buffer * option error;
}.

(** The map is ranged over in the order [order], the entries of [m] in the
    order the run-time system happens to yield them. *)
Definition reverseByteRuneMap_range (order : list (byte * rune)) : gmap rune byte :=
  foldl (λ (newmap : gmap rune byte) (kv : byte * rune), <[kv.2 := kv.1]> newmap)
        ∅ order.

(** The orders in which [range m] may yield the entries of [m]. *)
Definition range_map (m : gmap byte rune) (order : list (byte * rune)) : Prop :=
  order ≡ₚ map_to_list m.

(** One run of [reverseByteRuneMap], along the order of [map_to_list]. *)
Definition reverseByteRuneMap (m : gmap byte rune) : gmap rune byte :=
  reverseByteRuneMap_range (map_to_list m).

Definition mapBytesToRunes (cm : gmap byte rune) (data : string)
  : string * option error :=
  let loop :=
    foldl (λ (st : Buffer * option error) (c : byte),
             match cm !! c with
             | Some r => (WriteRune st.1 r, st.2)
             | None => (WriteRune st.1 utf8.RuneError, Some ErrInvalidCodepoint)
             end)
          (NewBuffer [], None) (list_ascii_of_string data) in
  (Buffer_String loop.1, loop.2).

Definition mapRunesToBytes (cm : gmap rune byte) (data : string)
  : string * option error :=
  let loop :=
    foldl (λ (st : Buffer * option error) (r : rune),
             match cm !! r with
             | Some c => (WriteByte st.1 c, st.2)
             | None => (WriteByte st.1 "?"%char, Some ErrInvalidCodepoint)
             end)
          (NewBuffer [], None) (range_string data) in
  (Buffer_String loop.1, loop.2).

Definition mapBytesToRunesBuffer (cm : gmap byte rune) (data : list byte)
  : Buffer * option error :=
  foldl (λ (st : Buffer * option error) (c : byte),
           match cm !! c with
           | Some r => (WriteRune st.1 r, st.2)
           | None => (WriteRune st.1 utf8.RuneError, Some ErrInvalidCodepoint)
           end)
        (NewBuffer [], None) data.

(** The loop ranges over a [[]byte]: [r] is a byte, and [rune(r)] its
    value. *)
Definition mapRunesToBytesBuffer (cm : gmap rune byte) (data : list byte)
  : Buffer * option error :=
  foldl (λ (st : Buffer * option error) (r : byte),
           match cm !! byte_to_Z r with
           | Some c => (WriteByte st.1 c, st.2)
           | None => (WriteByte st.1 "?"%char, Some ErrInvalidCodepoint)
           end)
        (NewBuffer [], None) data.

Record codecMap8Bit := {
  EncodeMap : gmap rune byte;
  DecodeMap : gmap byte rune;
}.

#[global] Instance codecMap8Bit_codec : codec codecMap8Bit := {
  codec_Encode c s := mapRunesToBytes (EncodeMap c) s;
  codec_Decode c s := mapBytesToRunes (DecodeMap c) s;
  codec_EncodeToBuffer c s := mapRunesToBytesBuffer (EncodeMap c) s;
  codec_DecodeToBuffer c s := mapBytesToRunesBuffer (DecodeMap c) s;
}.

(** ** The registry

    The package variables [aliasesMap] and [codecsMap]; every codec the
    package registers is a [*codecMap8Bit]. *)
Record registry := {
  aliasesMap : gmap string string;
  codecsMap : gmap string codecMap8Bit;
}.

Definition registry_empty : registry :=
  {| aliasesMap := ∅; codecsMap := ∅ |}.

Definition register (c : codecMap8Bit) (name : string) (aliases : list string)
    (st : registry) : registry :=
  {| codecsMap := <[name := c]> (codecsMap st);
     aliasesMap := foldl (λ (am : gmap string string) (alias : string),
                            <[alias := name]> am)
                         (aliasesMap st) aliases |}.

(** ** The codec tables *)

Module iso_8859_2.

Definition charmapDecode : gmap byte rune :=
  let x := byte_of_Z in
  list_to_map [
    (x 0x00, 0x0000); (x 0x01, 0x0001); (x 0x02, 0x0002); (x 0x03, 0x0003);
    (x 0x04, 0x0004); (x 0x05, 0x0005); (x 0x06, 0x0006); (x 0x07, 0x0007);
    (x 0x08, 0x0008); (x 0x09, 0x0009); (x 0x0A, 0x000A); (x 0x0B, 0x000B);
    (x 0x0C, 0x000C); (x 0x0D, 0x000D); (x 0x0E, 0x000E); (x 0x0F, 0x000F);
    (x 0x10, 0x0010); (x 0x11, 0x0011); (x 0x12, 0x0012); (x 0x13, 0x0013);
    (x 0x14, 0x0014); (x 0x15, 0x0015); (x 0x16, 0x0016); (x 0x17, 0x0017);
    (x 0x18, 0x0018); (x 0x19, 0x0019); (x 0x1A, 0x001A); (x 0x1B, 0x001B);
    (x 0x1C, 0x001C); (x 0x1D, 0x001D); (x 0x1E, 0x001E); (x 0x1F, 0x001F);
    (x 0x20, 0x0020); (x 0x21, 0x0021); (x 0x22, 0x0022); (x 0x23, 0x0023);
    (x 0x24, 0x0024); (x 0x25, 0x0025); (x 0x26, 0x0026); (x 0x27, 0x0027);
    (x 0x28, 0x0028); (x 0x29, 0x0029); (x 0x2A, 0x002A); (x 0x2B, 0x002B);
    (x 0x2C, 0x002C); (x 0x2D, 0x002D); (x 0x2E, 0x002E); (x 0x2F, 0x002F);
    (x 0x30, 0x0030); (x 0x31, 0x0031); (x 0x32, 0x0032); (x 0x33, 0x0033);
    (x 0x34, 0x0034); (x 0x35, 0x0035); (x 0x36, 0x0036); (x 0x37, 0x0037);
    (x 0x38, 0x0038); (x 0x39, 0x0039); (x 0x3A, 0x003A); (x 0x3B, 0x003B);
    (x 0x3C, 0x003C); (x 0x3D, 0x003D); (x 0x3E, 0x003E); (x 0x3F, 0x003F);
    (x 0x40, 0x0040); (x 0x41, 0x0041); (x 0x42, 0x0042); (x 0x43, 0x0043);
    (x 0x44, 0x0044); (x 0x45, 0x0045); (x 0x46, 0x0046); (x 0x47, 0x0047);
    (x 0x48, 0x0048); (x 0x49, 0x0049); (x 0x4A, 0x004A); (x 0x4B, 0x004B);
    (x 0x4C, 0x004C); (x 0x4D, 0x004D); (x 0x4E, 0x004E); (x 0x4F, 0x004F);
    (x 0x50, 0x0050); (x 0x51, 0x0051); (x 0x52, 0x0052); (x 0x53, 0x0053);
    (x 0x54, 0x0054); (x 0x55, 0x0055); (x 0x56, 0x0056); (x 0x57, 0x0057);
    (x 0x58, 0x0058); (x 0x59, 0x0059); (x 0x5A, 0x005A); (x 0x5B, 0x005B);
    (x 0x5C, 0x005C); (x 0x5D, 0x005D); (x 0x5E, 0x005E); (x 0x5F, 0x005F);
    (x 0x60, 0x0060); (x 0x61, 0x0061); (x 0x62, 0x0062); (x 0x63, 0x0063);
    (x 0x64, 0x0064); (x 0x65, 0x0065); (x 0x66, 0x0066); (x 0x67, 0x0067);
    (x 0x68, 0x0068); (x 0x69, 0x0069); (x 0x6A, 0x006A); (x 0x6B, 0x006B);
    (x 0x6C, 0x006C); (x 0x6D, 0x006D); (x 0x6E, 0x006E); (x 0x6F, 0x006F);
    (x 0x70, 0x0070); (x 0x71, 0x0071); (x 0x72, 0x0072); (x 0x73, 0x0073);
    (x 0x74, 0x0074); (x 0x75, 0x0075); (x 0x76, 0x0076); (x 0x77, 0x0077);
    (x 0x78, 0x0078); (x 0x79, 0x0079); (x 0x7A, 0x007A); (x 0x7B, 0x007B);
    (x 0x7C, 0x007C); (x 0x7D, 0x007D); (x 0x7E, 0x007E); (x 0x7F, 0x007F);
    (x 0x80, 0x0080); (x 0x81, 0x0081); (x 0x82, 0x0082); (x 0x83, 0x0083);
    (x 0x84, 0x0084); (x 0x85, 0x0085); (x 0x86, 0x0086); (x 0x87, 0x0087);
    (x 0x88, 0x0088); (x 0x89, 0x0089); (x 0x8A, 0x008A); (x 0x8B, 0x008B);
    (x 0x8C, 0x008C); (x 0x8D, 0x008D); (x 0x8E, 0x008E); (x 0x8F, 0x008F);
    (x 0x90, 0x0090); (x 0x91, 0x0091); (x 0x92, 0x0092); (x 0x93, 0x0093);
    (x 0x94, 0x0094); (x 0x95, 0x0095); (x 0x96, 0x0096); (x 0x97, 0x0097);
    (x 0x98, 0x0098); (x 0x99, 0x0099); (x 0x9A, 0x009A); (x 0x9B, 0x009B);
    (x 0x9C, 0x009C); (x 0x9D, 0x009D); (x 0x9E, 0x009E); (x 0x9F, 0x009F);
    (x 0xA0, 0x00A0); (x 0xA1, 0x0104); (x 0xA2, 0x02D8); (x 0xA3, 0x0141);
    (x 0xA4, 0x00A4); (x 0xA5, 0x013D); (x 0xA6, 0x015A); (x 0xA7, 0x00A7);
    (x 0xA8, 0x00A8); (x 0xA9, 0x0160); (x 0xAA, 0x015E); (x 0xAB, 0x0164);
    (x 0xAC, 0x0179); (x 0xAD, 0x00AD); (x 0xAE, 0x017D); (x 0xAF, 0x017B);
    (x 0xB0, 0x00B0); (x 0xB1, 0x0105); (x 0xB2, 0x02DB); (x 0xB3, 0x0142);
    (x 0xB4, 0x00B4); (x 0xB5, 0x013E); (x 0xB6, 0x015B); (x 0xB7, 0x02C7);
    (x 0xB8, 0x00B8); (x 0xB9, 0x0161); (x 0xBA, 0x015F); (x 0xBB, 0x0165);
    (x 0xBC, 0x017A); (x 0xBD, 0x02DD); (x 0xBE, 0x017E); (x 0xBF, 0x017C);
    (x 0xC0, 0x0154); (x 0xC1, 0x00C1); (x 0xC2, 0x00C2); (x 0xC3, 0x0102);
    (x 0xC4, 0x00C4); (x 0xC5, 0x0139); (x 0xC6, 0x0106); (x 0xC7, 0x00C7);
    (x 0xC8, 0x010C); (x 0xC9, 0x00C9); (x 0xCA, 0x0118); (x 0xCB, 0x00CB);
    (x 0xCC, 0x011A); (x 0xCD, 0x00CD); (x 0xCE, 0x00CE); (x 0xCF, 0x010E);
    (x 0xD0, 0x0110); (x 0xD1, 0x0143); (x 0xD2, 0x0147); (x 0xD3, 0x00D3);
    (x 0xD4, 0x00D4); (x 0xD5, 0x0150); (x 0xD6, 0x00D6); (x 0xD7, 0x00D7);
    (x 0xD8, 0x0158); (x 0xD9, 0x016E); (x 0xDA, 0x00DA); (x 0xDB, 0x0170);
    (x 0xDC, 0x00DC); (x 0xDD, 0x00DD); (x 0xDE, 0x0162); (x 0xDF, 0x00DF);
    (x 0xE0, 0x0155); (x 0xE1, 0x00E1); (x 0xE2, 0x00E2); (x 0xE3, 0x0103);
    (x 0xE4, 0x00E4); (x 0xE5, 0x013A); (x 0xE6, 0x0107); (x 0xE7, 0x00E7);
    (x 0xE8, 0x010D); (x 0xE9, 0x00E9); (x 0xEA, 0x0119); (x 0xEB, 0x00EB);
    (x 0xEC, 0x011B); (x 0xED, 0x00ED); (x 0xEE, 0x00EE); (x 0xEF, 0x010F);
    (x 0xF0, 0x0111); (x 0xF1, 0x0144); (x 0xF2, 0x0148); (x 0xF3, 0x00F3);
    (x 0xF4, 0x00F4); (x 0xF5, 0x0151); (x 0xF6, 0x00F6); (x 0xF7, 0x00F7);
    (x 0xF8, 0x0159); (x 0xF9, 0x016F); (x 0xFA, 0x00FA); (x 0xFB, 0x0171);
    (x 0xFC, 0x00FC); (x 0xFD, 0x00FD); (x 0xFE, 0x0163); (x 0xFF, 0x02D9)
  ].

Definition charmapEncode : gmap rune byte := reverseByteRuneMap charmapDecode.

Definition newCodec : codecMap8Bit :=
  {| EncodeMap := charmapEncode; DecodeMap := charmapDecode |}.

Definition init (st : registry) : registry :=
  register newCodec "ISO-8859-2" ["8859-2"; "ISO8859-2"] st.

End iso_8859_2.

Module iso_8859_14.

Definition charmapDecode : gmap byte rune :=
  let x := byte_of_Z in
  list_to_map [
    (x 0x00, 0x0000); (x 0x01, 0x0001); (x 0x02, 0x0002); (x 0x03, 0x0003);
    (x 0x04, 0x0004); (x 0x05, 0x0005); (x 0x06, 0x0006); (x 0x07, 0x0007);
    (x 0x08, 0x0008); (x 0x09, 0x0009); (x 0x0A, 0x000A); (x 0x0B, 0x000B);
    (x 0x0C, 0x000C); (x 0x0D, 0x000D); (x 0x0E, 0x000E); (x 0x0F, 0x000F);
    (x 0x10, 0x0010); (x 0x11, 0x0011); (x 0x12, 0x0012); (x 0x13, 0x0013);
    (x 0x14, 0x0014); (x 0x15, 0x0015); (x 0x16, 0x0016); (x 0x17, 0x0017);
    (x 0x18, 0x0018); (x 0x19, 0x0019); (x 0x1A, 0x001A); (x 0x1B, 0x001B);
    (x 0x1C, 0x001C); (x 0x1D, 0x001D); (x 0x1E, 0x001E); (x 0x1F, 0x001F);
    (x 0x20, 0x0020); (x 0x21, 0x0021); (x 0x22, 0x0022); (x 0x23, 0x0023);
    (x 0x24, 0x0024); (x 0x25, 0x0025); (x 0x26, 0x0026); (x 0x27, 0x0027);
    (x 0x28, 0x0028); (x 0x29, 0x0029); (x 0x2A, 0x002A); (x 0x2B, 0x002B);
    (x 0x2C, 0x002C); (x 0x2D, 0x002D); (x 0x2E, 0x002E); (x 0x2F, 0x002F);
    (x 0x30, 0x0030); (x 0x31, 0x0031); (x 0x32, 0x0032); (x 0x33, 0x0033);
    (x 0x34, 0x0034); (x 0x35, 0x0035); (x 0x36, 0x0036); (x 0x37, 0x0037);
    (x 0x38, 0x0038); (x 0x39, 0x0039); (x 0x3A, 0x003A); (x 0x3B, 0x003B);
    (x 0x3C, 0x003C); (x 0x3D, 0x003D); (x 0x3E, 0x003E); (x 0x3F, 0x003F);
    (x 0x40, 0x0040); (x 0x41, 0x0041); (x 0x42, 0x0042); (x 0x43, 0x0043);
    (x 0x44, 0x0044); (x 0x45, 0x0045); (x 0x46, 0x0046); (x 0x47, 0x0047);
    (x 0x48, 0x0048); (x 0x49, 0x0049); (x 0x4A, 0x004A); (x 0x4B, 0x004B);
    (x 0x4C, 0x004C); (x 0x4D, 0x004D); (x 0x4E, 0x004E); (x 0x4F, 0x004F);
    (x 0x50, 0x0050); (x 0x51, 0x0051); (x 0x52, 0x0052); (x 0x53, 0x0053);
    (x 0x54, 0x0054); (x 0x55, 0x0055); (x 0x56, 0x0056); (x 0x57, 0x0057);
    (x 0x58, 0x0058); (x 0x59, 0x0059); (x 0x5A, 0x005A); (x 0x5B, 0x005B);
    (x 0x5C, 0x005C); (x 0x5D, 0x005D); (x 0x5E, 0x005E); (x 0x5F, 0x005F);
    (x 0x60, 0x0060); (x 0x61, 0x0061); (x 0x62, 0x0062); (x 0x63, 0x0063);
    (x 0x64, 0x0064); (x 0x65, 0x0065); (x 0x66, 0x0066); (x 0x67, 0x0067);
    (x 0x68, 0x0068); (x 0x69, 0x0069); (x 0x6A, 0x006A); (x 0x6B, 0x006B);
    (x 0x6C, 0x006C); (x 0x6D, 0x006D); (x 0x6E, 0x006E); (x 0x6F, 0x006F);
    (x 0x70, 0x0070); (x 0x71, 0x0071); (x 0x72, 0x0072); (x 0x73, 0x0073);
    (x 0x74, 0x0074); (x 0x75, 0x0075); (x 0x76, 0x0076); (x 0x77, 0x0077);
    (x 0x78, 0x0078); (x 0x79, 0x0079); (x 0x7A, 0x007A); (x 0x7B, 0x007B);
    (x 0x7C, 0x007C); (x 0x7D, 0x007D); (x 0x7E, 0x007E); (x 0x7F, 0x007F);
    (x 0x80, 0x0080); (x 0x81, 0x0081); (x 0x82, 0x0082); (x 0x83, 0x0083);
    (x 0x84, 0x0084); (x 0x85, 0x0085); (x 0x86, 0x0086); (x 0x87, 0x0087);
    (x 0x88, 0x0088); (x 0x89, 0x0089); (x 0x8A, 0x008A); (x 0x8B, 0x008B);
    (x 0x8C, 0x008C); (x 0x8D, 0x008D); (x 0x8E, 0x008E); (x 0x8F, 0x008F);
    (x 0x90, 0x0090); (x 0x91, 0x0091); (x 0x92, 0x0092); (x 0x93, 0x0093);
    (x 0x94, 0x0094); (x 0x95, 0x0095); (x 0x96, 0x0096); (x 0x97, 0x0097);
    (x 0x98, 0x0098); (x 0x99, 0x0099); (x 0x9A, 0x009A); (x 0x9B, 0x009B);
    (x 0x9C, 0x009C); (x 0x9D, 0x009D); (x 0x9E, 0x009E); (x 0x9F, 0x009F);
    (x 0xA0, 0x00A0); (x 0xA1, 0x1E02); (x 0xA2, 0x1E03); (x 0xA3, 0x00A3);
    (x 0xA4, 0x010A); (x 0xA5, 0x010B); (x 0xA6, 0x1E0A); (x 0xA7, 0x00A7);
    (x 0xA8, 0x1E80); (x 0xA9, 0x00A9); (x 0xAA, 0x1E82); (x 0xAB, 0x1E0B);
    (x 0xAC, 0x1EF2); (x 0xAD, 0x00AD); (x 0xAE, 0x00AE); (x 0xAF, 0x0178);
    (x 0xB0, 0x1E1E); (x 0xB1, 0x1E1F); (x 0xB2, 0x0120); (x 0xB3, 0x0121);
    (x 0xB4, 0x1E40); (x 0xB5, 0x1E41); (x 0xB6, 0x00B6); (x 0xB7, 0x1E56);
    (x 0xB8, 0x1E81); (x 0xB9, 0x1E57); (x 0xBA, 0x1E83); (x 0xBB, 0x1E60);
    (x 0xBC, 0x1EF3); (x 0xBD, 0x1E84); (x 0xBE, 0x1E85); (x 0xBF, 0x1E61);
    (x 0xC0, 0x00C0); (x 0xC1, 0x00C1); (x 0xC2, 0x00C2); (x 0xC3, 0x00C3);
    (x 0xC4, 0x00C4); (x 0xC5, 0x00C5); (x 0xC6, 0x00C6); (x 0xC7, 0x00C7);
    (x 0xC8, 0x00C8); (x 0xC9, 0x00C9); (x 0xCA, 0x00CA); (x 0xCB, 0x00CB);
    (x 0xCC, 0x00CC); (x 0xCD, 0x00CD); (x 0xCE, 0x00CE); (x 0xCF, 0x00CF);
    (x 0xD0, 0x0174); (x 0xD1, 0x00D1); (x 0xD2, 0x00D2); (x 0xD3, 0x00D3);
    (x 0xD4, 0x00D4); (x 0xD5, 0x00D5); (x 0xD6, 0x00D6); (x 0xD7, 0x1E6A);
    (x 0xD8, 0x00D8); (x 0xD9, 0x00D9); (x 0xDA, 0x00DA); (x 0xDB, 0x00DB);
    (x 0xDC, 0x00DC); (x 0xDD, 0x00DD); (x 0xDE, 0x0176); (x 0xDF, 0x00DF);
    (x 0xE0, 0x00E0); (x 0xE1, 0x00E1); (x 0xE2, 0x00E2); (x 0xE3, 0x00E3);
    (x 0xE4, 0x00E4); (x 0xE5, 0x00E5); (x 0xE6, 0x00E6); (x 0xE7, 0x00E7);
    (x 0xE8, 0x00E8); (x 0xE9, 0x00E9); (x 0xEA, 0x00EA); (x 0xEB, 0x00EB);
    (x 0xEC, 0x00EC); (x 0xED, 0x00ED); (x 0xEE, 0x00EE); (x 0xEF, 0x00EF);
    (x 0xF0, 0x0175); (x 0xF1, 0x00F1); (x 0xF2, 0x00F2); (x 0xF3, 0x00F3);
    (x 0xF4, 0x00F4); (x 0xF5, 0x00F5); (x 0xF6, 0x00F6); (x 0xF7, 0x1E6B);
    (x 0xF8, 0x00F8); (x 0xF9, 0x00F9); (x 0xFA, 0x00FA); (x 0xFB, 0x00FB);
    (x 0xFC, 0x00FC); (x 0xFD, 0x00FD); (x 0xFE, 0x0177); (x 0xFF, 0x00FF)
  ].

Definition charmapEncode : gmap rune byte := reverseByteRuneMap charmapDecode.

Definition newCodec : codecMap8Bit :=
  {| EncodeMap := charmapEncode; DecodeMap := charmapDecode |}.

Definition init (st : registry) : registry :=
  register newCodec "ISO-8859-14" ["8859-14"; "ISO8859-14"] st.

End iso_8859_14.

(** The package variables once every [init] has run. *)
Definition package : registry :=
  iso_8859_2.init (iso_8859_14.init registry_empty).

(** ** Package strings of the Go library *)

(** [strings.Map]: the runes of [s] are mapped one by one, a negative result
    drops the rune, and the results are written in UTF-8. *)
Definition strings_Map (mapping : rune → rune) (s : string) : string :=
  Buffer_String
    (foldl (λ (b : Buffer) (c : rune),
              let r := mapping c in
              if 0 <=? r then WriteRune b r else b)
           (NewBuffer []) (range_string s)).

(** The upper case of an ASCII letter, [c -= 'a' - 'A']. *)
Definition upper_byte (c : byte) : byte :=
  let v := byte_to_Z c in
  if (0x61 <=? v) && (v <=? 0x7A) then byte_of_Z (v - (0x61 - 0x41)) else c.

(** [strings.Replace(s, old, new, -1)] for one-byte [old] and [new]: every
    occurrence of the byte is replaced. *)
Definition strings_Replace (s : string) (old new : byte) : string :=
  string_of_list_ascii
    ((λ c : byte, if decide (c = old) then new else c) <$> list_ascii_of_string s).

Section Facade.

(** [unicode.ToUpper], reached only by a label that is not ASCII. *)
Variable unicode_ToUpper : rune → rune.

(** [strings.ToUpper]: byte by byte on an ASCII string, through
    [strings.Map] on any other. *)
Definition strings_ToUpper (s : string) : string :=
  let bs := list_ascii_of_string s in
  if forallb (λ c : byte, byte_to_Z c <? utf8.RuneSelf) bs
  then string_of_list_ascii (upper_byte <$> bs)
  else strings_Map unicode_ToUpper s.

Definition getCodecForEncoding (encoding : string) : string :=
  let encoding := strings_ToUpper encoding in
  let encoding := strings_Replace encoding "_"%char "-"%char in
  match aliasesMap package !! encoding with
  | Some name => name
  | None => encoding
  end.

Definition Encode (data : string) (encoding : string) : string * option error :=
  let encoding := getCodecForEncoding encoding in
  match codecsMap package !! encoding with
  | Some codec => codec_Encode codec data
  | None => (data, Some ErrUnknownEncoding)
  end.

Definition Decode (data : string) (encoding : string) : string * option error :=
  let encoding := getCodecForEncoding encoding in
  match codecsMap package !! encoding with
  | Some codec => codec_Decode codec data
  | None => (data, Some ErrUnknownEncoding)
  end.

Definition EncodeToBuffer (data : list byte) (encoding : string)
  : Buffer * option error :=
  let encoding := getCodecForEncoding encoding in
  match codecsMap package !! encoding with
  | Some codec => codec_EncodeToBuffer codec data
  | None => (NewBuffer data, Some ErrUnknownEncoding)
  end.

Definition DecodeToBuffer (data : list byte) (encoding : string)
  : Buffer * option error :=
  let encoding := getCodecForEncoding encoding in
  match codecsMap package !! encoding with
  | Some codec => codec_DecodeToBuffer codec data
  | None => (NewBuffer data, Some ErrUnknownEncoding)
  end.

(** [List] ranges over [codecsMap]; the slice it returns holds the names
    in the order of that iteration, whichever it is. *)
Definition List_range (order : list (string * codecMap8Bit)) : list string :=
  foldl (λ (list : list string) (kv : string * codecMap8Bit), list ++ [kv.1])
        [] order.

Definition List_returns (l : list string) : Prop :=
  ∃ order, order ≡ₚ map_to_list (codecsMap package) ∧ l = List_range order.

End Facade.

(** ** Definitions used by the statements and the proofs *)

(** The decoder in arithmetic form: [is_cont] recognises a continuation
    byte, [second_lo] and [second_hi] bound the second byte after the
    leading byte [b0]. *)
Definition is_cont (b : Z) : bool := (0x80 <=? b) && (b <? 0xC0).

Definition second_lo (b0 : Z) : Z :=
  if b0 =? 0xE0 then 0xA0 else if b0 =? 0xF0 then 0x90 else 0x80.
Definition second_hi (b0 : Z) : Z :=
  if b0 =? 0xED then 0x9F else if b0 =? 0xF4 then 0x8F else 0xBF.

Definition decode_arith (s : list byte) : rune * nat :=
  match s with
  | [] => (utf8.RuneError, 0%nat)
  | c0 :: t =>
    let b0 := byte_to_Z c0 in
    if b0 <? 0x80 then (b0, 1%nat)
    else if (b0 <? 0xC2) || (0xF5 <=? b0) then (utf8.RuneError, 1%nat)
    else
      match t with
      | [] => (utf8.RuneError, 1%nat)
      | c1 :: t =>
        let b1 := byte_to_Z c1 in
        if (b1 <? second_lo b0) || (second_hi b0 <? b1) then (utf8.RuneError, 1%nat)
        else if b0 <? 0xE0 then ((b0 - 0xC0) * 64 + (b1 - 0x80), 2%nat)
        else
          match t with
          | [] => (utf8.RuneError, 1%nat)
          | c2 :: t =>
            let b2 := byte_to_Z c2 in
            if negb (is_cont b2) then (utf8.RuneError, 1%nat)
            else if b0 <? 0xF0 then
              ((b0 - 0xE0) * 4096 + (b1 - 0x80) * 64 + (b2 - 0x80), 3%nat)
            else
              match t with
              | [] => (utf8.RuneError, 1%nat)
              | c3 :: _ =>
                let b3 := byte_to_Z c3 in
                if negb (is_cont b3) then (utf8.RuneError, 1%nat)
                else ((b0 - 0xF0) * 262144 + (b1 - 0x80) * 4096
                      + (b2 - 0x80) * 64 + (b3 - 0x80), 4%nat)
              end
          end
      end
  end.

(** The rune read back from what [EncodeRune] wrote for [r]: [r] itself
    when it is a Unicode scalar value, the replacement rune otherwise. *)
Definition clean (r : rune) : rune :=
  if utf8.ValidRune (uint32 r) then uint32 r else utf8.RuneError.

(** The encoder in arithmetic form, on the value [i] of [uint32(r)]. *)
Definition encode_arith (i : Z) : list Z :=
  if i <=? 0x7F then [i]
  else if i <=? 0x7FF then [0xC0 + i / 64; 0x80 + i mod 64]
  else if (0x10FFFF <? i) || ((0xD800 <=? i) && (i <=? 0xDFFF)) then
    [0xEF; 0xBF; 0xBD]
  else if i <=? 0xFFFF then
    [0xE0 + i / 4096; 0x80 + (i / 64) mod 64; 0x80 + i mod 64]
  else
    [0xF0 + i / 262144; 0x80 + (i / 4096) mod 64; 0x80 + (i / 64) mod 64;
     0x80 + i mod 64].

(** The steps of the iteration over a byte sequence. *)
Definition range_list (s : list byte) : list (rune * nat) :=
  range_steps (length s) s.

(** What the decoding loop emits for a byte, and what the encoding loop
    emits for a rune. *)
Definition decode_emit (cm : gmap byte rune) (c : byte) : rune :=
  default utf8.RuneError (cm !! c).

Definition encode_emit (cm : gmap rune byte) (r : rune) : byte :=
  default "?"%char (cm !! r).

(** The status of a loop that met the units [units]. *)
Definition status {A} (mapped : A → bool) (units : list A) : option error :=
  if forallb mapped units then None else Some ErrInvalidCodepoint.

Definition mapped_byte (cm : gmap byte rune) (c : byte) : bool :=
  bool_decide (is_Some (cm !! c)).
Definition mapped_rune (cm : gmap rune byte) (r : rune) : bool :=
  bool_decide (is_Some (cm !! r)).

(** The entry that survives for [c]: the last one of [order] whose rune is
    [c]. *)
Definition last_entry (c : rune) (order : list (byte * rune)) : option byte :=
  fst <$> last (filter (λ kv : byte * rune, kv.2 = c) order).

(** A table no two bytes of which decode to the same rune. *)
Definition injective_table (m : gmap byte rune) : Prop :=
  ∀ b1 b2 c, m !! b1 = Some c → m !! b2 = Some c → b1 = b2.

(** Decidable forms of injectivity and of validity of the runes of a
    table. *)
Definition table_injective_check (m : gmap byte rune) : bool :=
  bool_decide (NoDup (map_to_list m).*2).

(** A codec whose encode table inverts its decode table and never holds
    the replacement rune. *)
Record table_codec (c : codecMap8Bit) : Prop := {
  tc_inverse : ∀ r b, EncodeMap c !! r = Some b → DecodeMap c !! b = Some r;
  tc_no_replacement : EncodeMap c !! utf8.RuneError = None;
}.

Definition table_valid_check (m : gmap byte rune) : bool :=
  forallb (λ kv : byte * rune, utf8.ValidRune kv.2) (map_to_list m).

(** The number of bytes of [data] the decode table of [c] does not map, and
    the number of runes of [data] its encode table does not map. *)
Definition unmappable_bytes (c : codecMap8Bit) (data : string) : nat :=
  length (filter (λ b, DecodeMap c !! b = None) (list_ascii_of_string data)).

Definition unmappable_runes (c : codecMap8Bit) (data : string) : nat :=
  length (filter (λ r, EncodeMap c !! r = None) (range_string data)).

(** A codec with a partial decode table. *)
Definition partial_codec : codecMap8Bit :=
  {| DecodeMap := {[ "A"%char := 0x41 ]};
     EncodeMap := reverseByteRuneMap {[ "A"%char := 0x41 ]} |}.

(** A table in which two bytes decode to the same rune. *)
Definition two_to_one : gmap byte rune :=
  {[ "A"%char := 0x100; "B"%char := 0x100 ]}.

(** * Proofs *)

(** ** Tactics for conditionals on integers *)

(** Decide the comparisons of the goal that [tac] can settle. *)
Ltac zdec_with tac :=
  repeat match goal with
  | |- context [Z.ltb ?a ?b] =>
      first [ rewrite (proj2 (Z.ltb_lt a b)) by tac
            | rewrite (proj2 (Z.ltb_ge a b)) by tac ]
  | |- context [Z.leb ?a ?b] =>
      first [ rewrite (proj2 (Z.leb_le a b)) by tac
            | rewrite (proj2 (Z.leb_gt a b)) by tac ]
  | |- context [Z.eqb ?a ?b] =>
      first [ rewrite (proj2 (Z.eqb_eq a b)) by tac
            | rewrite (proj2 (Z.eqb_neq a b)) by tac ]
  end; cbn [orb andb negb]; cbv iota.

Ltac zlia := Z.div_mod_to_equations; lia.

Ltac zdec := zdec_with lia.

(** Pick the disjunct the context makes true. *)
Ltac first_or :=
  solve [ repeat first [ split; [lia | reflexivity]
                       | left; split; [lia | reflexivity]
                       | right ] ].

(** Split on one comparison of the goal. *)
Ltac zsplit :=
  match goal with
  | |- context [Z.ltb ?a ?b] => destruct (Z.ltb_spec a b)
  | |- context [Z.leb ?a ?b] => destruct (Z.leb_spec a b)
  | |- context [Z.eqb ?a ?b] => destruct (Z.eqb_spec a b)
  end.

Ltac zcrush :=
  repeat (cbn [orb andb negb length fst snd]; cbv iota; zdec;
          try done; try zsplit).

(** Compare two lists of bytes value by value. *)
Ltac bytes_eq :=
  repeat (apply (f_equal2 cons); [apply (f_equal byte_of_Z)|]);
  try reflexivity.

(** ** Examples of the iteration over a string *)

Example range_ascii : range_string "Az" = [0x41; 0x7A].
Proof. reflexivity. Qed.

(** U+0104 is written C4 84, U+20AC is written E2 82 AC. *)
Example range_multibyte : range_string "Ą€" = [0x104; 0x20AC].
Proof. reflexivity. Qed.

Example encode_euro :
  string_of_list_ascii (utf8.EncodeRune 0x20AC) = "€".
Proof. reflexivity. Qed.

(** A truncated three-byte sequence: each of its bytes is one step. *)
Example range_truncated :
  range_string_steps (String "226" (String "130" EmptyString))
  = [(utf8.RuneError, 1%nat); (utf8.RuneError, 1%nat)].
Proof. reflexivity. Qed.

Lemma byte_to_Z_range (c : byte) : 0 ≤ byte_to_Z c < 256.
Proof.
  unfold byte_to_Z. pose proof (N_ascii_bounded c). lia.
Qed.

Lemma byte_of_to_Z (c : byte) : byte_of_Z (byte_to_Z c) = c.
Proof.
  unfold byte_of_Z. pose proof (byte_to_Z_range c) as Hc.
  rewrite Z.mod_small by done. unfold byte_to_Z.
  by rewrite N2Z.id, ascii_N_embedding.
Qed.

Lemma byte_to_of_Z (z : Z) : byte_to_Z (byte_of_Z z) = z mod 256.
Proof.
  unfold byte_to_Z, byte_of_Z.
  pose proof (Z.mod_pos_bound z 256 ltac:(lia)).
  rewrite N_ascii_embedding by lia. lia.
Qed.

Lemma byte_of_Z_mod (z : Z) : byte_of_Z (z mod 256) = byte_of_Z z.
Proof. unfold byte_of_Z. by rewrite Z.mod_mod. Qed.

Lemma byte_to_Z_inj (c d : byte) : byte_to_Z c = byte_to_Z d → c = d.
Proof. intros H. by rewrite <- (byte_of_to_Z c), H, byte_of_to_Z. Qed.

Lemma lor_disjoint (a b k : Z) :
  0 ≤ k → 0 ≤ b < 2 ^ k → a mod 2 ^ k = 0 → Z.lor a b = a + b.
Proof.
  intros Hk Hb Ha. rewrite <- Z.add_lor_land.
  assert (Z.land a b = 0) as ->; [|lia].
  apply Z.bits_inj'. intros n Hn. rewrite Z.land_spec, Z.bits_0.
  destruct (Z.lt_ge_cases n k).
  - rewrite <- (Z.mod_pow2_bits_low a k n), Ha, Z.bits_0 by lia. done.
  - rewrite <- (Z.mod_small b (2 ^ k)) by lia.
    rewrite Z.mod_pow2_bits_high by lia. apply andb_false_r.
Qed.

Lemma land_mask (a k : Z) : 0 ≤ k → Z.land a (2 ^ k - 1) = a mod 2 ^ k.
Proof.
  intros Hk. rewrite <- Z.land_ones by done. by rewrite Z.ones_equiv, Z.sub_1_r.
Qed.

Lemma u8_0 (r : Z) : u8 r = uint32 r mod 256.
Proof. unfold u8, uint32. change (2 ^ 32) with 4294967296. Z.div_mod_to_equations. lia. Qed.

Lemma u8_shiftr_6 (r : Z) : u8 (Z.shiftr r 6) = (uint32 r / 64) mod 256.
Proof.
  unfold u8, uint32. rewrite Z.shiftr_div_pow2 by lia.
  change (2 ^ 32) with 4294967296. change (2 ^ 6) with 64. Z.div_mod_to_equations. lia.
Qed.

Lemma u8_shiftr_12 (r : Z) : u8 (Z.shiftr r 12) = (uint32 r / 4096) mod 256.
Proof.
  unfold u8, uint32. rewrite Z.shiftr_div_pow2 by lia.
  change (2 ^ 32) with 4294967296. change (2 ^ 12) with 4096. Z.div_mod_to_equations. lia.
Qed.

Lemma u8_shiftr_18 (r : Z) : u8 (Z.shiftr r 18) = (uint32 r / 262144) mod 256.
Proof.
  unfold u8, uint32. rewrite Z.shiftr_div_pow2 by lia.
  change (2 ^ 32) with 4294967296. change (2 ^ 18) with 262144. Z.div_mod_to_equations. lia.
Qed.

Lemma cont_byte (x : Z) :
  byte_to_Z (byte_of_Z (Z.lor utf8.tx (Z.land x utf8.maskx))) = 0x80 + x mod 64.
Proof.
  change utf8.maskx with (2 ^ 6 - 1). rewrite land_mask by lia.
  change (2 ^ 6) with 64.
  pose proof (Z.mod_pos_bound x 64 ltac:(lia)).
  rewrite (lor_disjoint _ _ 6) by (done || (change (2 ^ 6) with 64; lia)).
  rewrite byte_to_of_Z. unfold utf8.tx. apply Z.mod_small. lia.
Qed.

Lemma join_bits (a b k : Z) :
  0 ≤ k → 0 ≤ b < 2 ^ k → Z.lor (Z.shiftl a k) b = a * 2 ^ k + b.
Proof.
  intros Hk Hb. rewrite Z.shiftl_mul_pow2 by done.
  apply (lor_disjoint _ _ k); [done..|]. apply Z.mod_mul. lia.
Qed.

Lemma first_cases (b : Z) :
  0 ≤ b < 256 →
  (b < 0x80 ∧ utf8.first b = utf8.as_) ∨
  ((0x80 ≤ b < 0xC2 ∨ 0xF5 ≤ b) ∧ utf8.first b = utf8.xx) ∨
  (0xC2 ≤ b < 0xE0 ∧ utf8.first b = utf8.s1) ∨
  (b = 0xE0 ∧ utf8.first b = utf8.s2) ∨
  ((0xE1 ≤ b < 0xED ∨ 0xEE ≤ b < 0xF0) ∧ utf8.first b = utf8.s3) ∨
  (b = 0xED ∧ utf8.first b = utf8.s4) ∨
  (b = 0xF0 ∧ utf8.first b = utf8.s5) ∨
  (0xF1 ≤ b < 0xF4 ∧ utf8.first b = utf8.s6) ∨
  (b = 0xF4 ∧ utf8.first b = utf8.s7).
Proof.
  intros Hb.
  assert (b < 0x80 ∨ 0x80 ≤ b < 0xC2 ∨ 0xF5 ≤ b ∨ 0xC2 ≤ b < 0xE0 ∨ b = 0xE0
          ∨ 0xE1 ≤ b < 0xED ∨ 0xEE ≤ b < 0xF0 ∨ b = 0xED ∨ b = 0xF0
          ∨ 0xF1 ≤ b < 0xF4 ∨ b = 0xF4) as Hcases by lia.
  unfold utf8.first.
  repeat (destruct Hcases as [Hc|Hcases]; [zdec; first_or|]).
  zdec; first_or.
Qed.

Lemma land_lead (b t k : Z) :
  0 ≤ k → t mod 2 ^ k = 0 → t ≤ b < t + 2 ^ k → Z.land b (2 ^ k - 1) = b - t.
Proof.
  intros Hk Ht Hb. rewrite land_mask by done.
  assert (0 < 2 ^ k) by (apply Z.pow_pos_nonneg; lia).
  apply Z.mod_divide in Ht as [q Hq]; [|lia].
  symmetry. apply (Z.mod_unique_pos _ _ q); lia.
Qed.

Lemma land_cont (b : Z) : 0x80 ≤ b < 0xC0 → Z.land b utf8.maskx = b - 0x80.
Proof. intros. by apply (land_lead b 0x80 6). Qed.

Lemma land_mask2 (b : Z) : 0xC0 ≤ b < 0xE0 → Z.land b utf8.mask2 = b - 0xC0.
Proof. intros. by apply (land_lead b 0xC0 5). Qed.

Lemma land_mask3 (b : Z) : 0xE0 ≤ b < 0xF0 → Z.land b utf8.mask3 = b - 0xE0.
Proof. intros. by apply (land_lead b 0xE0 4). Qed.

Lemma land_mask4 (b : Z) : 0xF0 ≤ b < 0xF8 → Z.land b utf8.mask4 = b - 0xF0.
Proof. intros. by apply (land_lead b 0xF0 3). Qed.

Lemma bits2 (b0 b1 : Z) :
  0xC0 ≤ b0 < 0xE0 → 0x80 ≤ b1 < 0xC0 →
  Z.lor (Z.shiftl (Z.land b0 utf8.mask2) 6) (Z.land b1 utf8.maskx)
  = (b0 - 0xC0) * 64 + (b1 - 0x80).
Proof.
  intros H0 H1. rewrite land_cont by done.
  rewrite land_mask2 by done.
  rewrite join_bits by (change (2 ^ 6) with 64; lia). done.
Qed.

Lemma bits3 (b0 b1 b2 : Z) :
  0xE0 ≤ b0 < 0xF0 → 0x80 ≤ b1 < 0xC0 → 0x80 ≤ b2 < 0xC0 →
  Z.lor (Z.lor (Z.shiftl (Z.land b0 utf8.mask3) 12)
               (Z.shiftl (Z.land b1 utf8.maskx) 6))
        (Z.land b2 utf8.maskx)
  = (b0 - 0xE0) * 4096 + (b1 - 0x80) * 64 + (b2 - 0x80).
Proof.
  intros H0 H1 H2. rewrite !land_cont by done.
  rewrite land_mask3 by done.
  rewrite (Z.shiftl_mul_pow2 (b1 - _)) by done.
  rewrite join_bits by (change (2 ^ 12) with 4096; change (2 ^ 6) with 64; lia).
  replace ((b0 - 224) * 2 ^ 12 + (b1 - 128) * 2 ^ 6)
    with (((b0 - 224) * 64 + (b1 - 128)) * 2 ^ 6)
    by (change (2 ^ 12) with 4096; change (2 ^ 6) with 64; lia).
  rewrite <- Z.shiftl_mul_pow2 by done.
  rewrite join_bits by (change (2 ^ 6) with 64; lia).
  change (2 ^ 6) with 64. lia.
Qed.

Lemma bits4 (b0 b1 b2 b3 : Z) :
  0xF0 ≤ b0 < 0xF8 → 0x80 ≤ b1 < 0xC0 → 0x80 ≤ b2 < 0xC0 → 0x80 ≤ b3 < 0xC0 →
  Z.lor (Z.lor (Z.lor (Z.shiftl (Z.land b0 utf8.mask4) 18)
                      (Z.shiftl (Z.land b1 utf8.maskx) 12))
               (Z.shiftl (Z.land b2 utf8.maskx) 6))
        (Z.land b3 utf8.maskx)
  = (b0 - 0xF0) * 262144 + (b1 - 0x80) * 4096 + (b2 - 0x80) * 64 + (b3 - 0x80).
Proof.
  intros H0 H1 H2 H3. rewrite !land_cont by done.
  rewrite land_mask4 by done.
  rewrite (Z.shiftl_mul_pow2 (b1 - _)), (Z.shiftl_mul_pow2 (b2 - _)) by done.
  rewrite join_bits by (change (2 ^ 18) with 262144; change (2 ^ 12) with 4096; lia).
  replace ((b0 - 240) * 2 ^ 18 + (b1 - 128) * 2 ^ 12)
    with (((b0 - 240) * 64 + (b1 - 128)) * 2 ^ 12)
    by (change (2 ^ 18) with 262144; change (2 ^ 12) with 4096; lia).
  rewrite <- Z.shiftl_mul_pow2 by done.
  rewrite join_bits by (change (2 ^ 12) with 4096; change (2 ^ 6) with 64; lia).
  replace (((b0 - 240) * 64 + (b1 - 128)) * 2 ^ 12 + (b2 - 128) * 2 ^ 6)
    with ((((b0 - 240) * 64 + (b1 - 128)) * 64 + (b2 - 128)) * 2 ^ 6)
    by (change (2 ^ 12) with 4096; change (2 ^ 6) with 64; lia).
  rewrite <- Z.shiftl_mul_pow2 by done.
  rewrite join_bits by (change (2 ^ 6) with 64; lia).
  change (2 ^ 6) with 64. lia.
Qed.

Lemma DecodeRune_arith (s : list byte) : utf8.DecodeRune s = decode_arith s.
Proof.
  destruct s as [|c0 t]; [done|].
  unfold utf8.DecodeRune, decode_arith, is_cont, second_lo, second_hi.
  pose proof (byte_to_Z_range c0) as H0. set (b0 := byte_to_Z c0) in *.
  destruct t as [|c1 t].
  2: pose proof (byte_to_Z_range c1) as H1; set (b1 := byte_to_Z c1) in *;
     destruct t as [|c2 t].
  3: pose proof (byte_to_Z_range c2) as H2; set (b2 := byte_to_Z c2) in *;
     destruct t as [|c3 t].
  4: pose proof (byte_to_Z_range c3) as H3; set (b3 := byte_to_Z c3) in *.
  all: destruct (first_cases b0 H0) as
    [[Hc ->]|[[Hc ->]|[[Hc ->]|[[Hc ->]|[[Hc ->]|[[Hc ->]|[[Hc ->]|[[Hc ->]|[Hc ->]]]]]]]]].
  all: unfold utf8.as_, utf8.xx, utf8.s1, utf8.s2, utf8.s3, utf8.s4, utf8.s5,
    utf8.s6, utf8.s7, utf8.locb, utf8.hicb.
  all: repeat match goal with
       | |- context [Z.land ?a 7] => let v := eval vm_compute in (Z.land a 7) in
                                     change (Z.land a 7) with v
       | |- context [utf8.acceptRanges ?a] =>
         let v := eval vm_compute in (utf8.acceptRanges a) in
         change (utf8.acceptRanges a) with v
       | |- context [Z.testbit ?a 0] => let v := eval vm_compute in (Z.testbit a 0) in
                                     change (Z.testbit a 0) with v
       end.
  all: try destruct Hc as [Hc|Hc].
  all: zcrush.
  all: match goal with |- (Z.lor _ _, _) = _ => f_equal; first [ apply bits2 | apply bits3 | apply bits4 ]; lia end.
Qed.

Lemma uint32_range r : 0 ≤ uint32 r < 4294967296.
Proof. unfold uint32. apply Z.mod_pos_bound. done. Qed.

Lemma cont_byte_of (x : Z) :
  byte_of_Z (Z.lor utf8.tx (Z.land x utf8.maskx)) = byte_of_Z (0x80 + x mod 64).
Proof.
  apply byte_to_Z_inj. rewrite cont_byte, byte_to_of_Z.
  symmetry. apply Z.mod_small. zlia.
Qed.

Lemma EncodeRune_arith (r : rune) :
  utf8.EncodeRune r = byte_of_Z <$> encode_arith (uint32 r).
Proof.
  pose proof (uint32_range r) as Hi.
  unfold utf8.EncodeRune, encode_arith.
  unfold utf8.rune1Max, utf8.rune2Max, utf8.rune3Max, utf8.MaxRune,
    utf8.surrogateMin, utf8.surrogateMax.
  rewrite !cont_byte_of.
  change (u8 utf8.RuneError) with 253.
  change (u8 (Z.shiftr utf8.RuneError 6)) with 255.
  change (u8 (Z.shiftr utf8.RuneError 12)) with 15.
  rewrite u8_shiftr_6, u8_shiftr_12, u8_shiftr_18, (u8_0 r).
  rewrite <- (byte_of_Z_mod r). fold (u8 r). rewrite (u8_0 r), byte_of_Z_mod.
  generalize dependent (uint32 r). clear r. intros i Hi.
  destruct (Z.leb_spec i 127) as [H1|H1].
  { reflexivity. }
  destruct (Z.leb_spec i 2047) as [H2|H2].
  { cbn [fmap list_fmap]. bytes_eq.
    - rewrite (lor_disjoint _ _ 6) by (done || (change (2 ^ 6) with 64; zlia)).
      unfold utf8.t2. f_equal. zlia.
    - zlia. }
  destruct ((1114111 <? i) || (55296 <=? i) && (i <=? 57343)) eqn:Hs.
  { reflexivity. }
  apply orb_false_iff in Hs as [Hs1 Hs2]. apply Z.ltb_ge in Hs1.
  destruct (Z.leb_spec i 65535) as [H3|H3].
  { cbn [fmap list_fmap]. bytes_eq.
    - rewrite (lor_disjoint _ _ 5) by (done || (change (2 ^ 5) with 32; zlia)).
      unfold utf8.t3. f_equal. zlia.
    - zlia.
    - zlia. }
  cbn [fmap list_fmap]. bytes_eq.
  - rewrite (lor_disjoint _ _ 4) by (done || (change (2 ^ 4) with 16; zlia)).
    unfold utf8.t4. f_equal. zlia.
  - zlia.
  - zlia.
  - zlia.
Qed.

Lemma byte_to_of_Z_small (v : Z) : 0 ≤ v < 256 → byte_to_Z (byte_of_Z v) = v.
Proof. intros. rewrite byte_to_of_Z. by apply Z.mod_small. Qed.

Lemma DecodeRune_EncodeRune (r : rune) (rest : list byte) :
  utf8.DecodeRune (utf8.EncodeRune r ++ rest)
  = (clean r, length (utf8.EncodeRune r)).
Proof.
  rewrite DecodeRune_arith, EncodeRune_arith.
  unfold clean, utf8.ValidRune, utf8.MaxRune, utf8.surrogateMin,
    utf8.surrogateMax, utf8.RuneError.
  pose proof (uint32_range r) as Hi.
  generalize dependent (uint32 r). clear r. intros i Hi.
  unfold encode_arith.
  destruct (Z.leb_spec i 127) as [H1|H1];
    [|destruct (Z.leb_spec i 2047) as [H2|H2];
      [|destruct ((1114111 <? i) || (55296 <=? i) && (i <=? 57343)) eqn:Hs;
        [apply orb_true_iff in Hs as [Hs|Hs];
           [apply Z.ltb_lt in Hs
           |apply andb_true_iff in Hs as [Hs1 Hs2];
            apply Z.leb_le in Hs1; apply Z.leb_le in Hs2]
        |apply orb_false_iff in Hs as [Hs1 Hs2]; apply Z.ltb_ge in Hs1;
          apply andb_false_iff in Hs2;
          rewrite Z.leb_gt, Z.leb_gt in Hs2; destruct Hs2 as [Hs2|Hs2];
          destruct (Z.leb_spec i 65535) as [H3|H3]]]].
  all: cbn [fmap list_fmap app length decode_arith].
  all: rewrite ?byte_to_of_Z_small by zlia.
  all: unfold second_lo, second_hi, is_cont.
  all: zdec_with zlia.
  all: repeat match goal with
       | |- context [Z.eqb ?a ?b] =>
         destruct (Z.eqb_spec a b); zdec_with zlia
       end.
  all: try reflexivity.
  all: f_equal; zlia.
Qed.

Lemma byte_of_Z_eq (v : Z) (c : byte) : v = byte_to_Z c → byte_of_Z v = c.
Proof. intros ->. apply byte_of_to_Z. Qed.

(** Encoding what a step decoded gives back the bytes the step consumed,
    unless the step reported an invalid byte. *)
Lemma EncodeRune_DecodeRune (s : list byte) (r : rune) (w : nat) :
  utf8.DecodeRune s = (r, w) →
  r ≠ utf8.RuneError →
  utf8.EncodeRune r = take w s.
Proof.
  rewrite DecodeRune_arith, EncodeRune_arith.
  destruct s as [|c0 t]; [by intros [= <- <-] Hne|].
  unfold decode_arith, is_cont, second_lo, second_hi.
  pose proof (byte_to_Z_range c0) as H0. set (b0 := byte_to_Z c0) in *.
  destruct t as [|c1 t].
  2: pose proof (byte_to_Z_range c1) as H1; set (b1 := byte_to_Z c1) in *;
     destruct t as [|c2 t].
  3: pose proof (byte_to_Z_range c2) as H2; set (b2 := byte_to_Z c2) in *;
     destruct t as [|c3 t].
  4: pose proof (byte_to_Z_range c3) as H3; set (b3 := byte_to_Z c3) in *.
  all: repeat (cbn [orb andb negb]; cbv iota;
               first [ progress zdec
                     | match goal with
                       | |- context [Z.eqb ?a ?b] => destruct (Z.eqb_spec a b)
                       end
                     | zsplit ]).
  all: intros [= <- <-] Hne; try done.
  all: unfold uint32; rewrite Z.mod_small by (change (2 ^ 32) with 4294967296; lia).
  all: unfold encode_arith;
    repeat (cbn [orb andb negb]; cbv iota; first [ progress zdec | zsplit ]).
  all: cbn [fmap list_fmap take].
  all: repeat (apply (f_equal2 cons); [apply byte_of_Z_eq|]); try reflexivity.
  all: try fold b0; try fold b1; try fold b2; try fold b3.
  all: zlia.
Qed.

Lemma DecodeRune_width (c : byte) (t : list byte) :
  (1 ≤ (utf8.DecodeRune (c :: t)).2 ≤ length (c :: t))%nat.
Proof.
  rewrite DecodeRune_arith. unfold decode_arith.
  repeat first [ case_match; simpl; try lia ].
Qed.

Lemma range_steps_fuel (f1 f2 : nat) (s : list byte) :
  (length s ≤ f1)%nat → (length s ≤ f2)%nat → range_steps f1 s = range_steps f2 s.
Proof.
  revert f2 s. induction f1 as [|f1 IH]; intros f2 s H1 H2.
  - destruct s; [|simpl in H1; lia]. by destruct f2.
  - destruct s as [|c t]; [by destruct f2|].
    destruct f2 as [|f2]; [simpl in H2; lia|].
    cbn [range_steps]. f_equal.
    pose proof (DecodeRune_width c t) as Hw.
    apply IH; rewrite length_drop; simpl in *; lia.
Qed.

Lemma range_list_cons (c : byte) (t : list byte) :
  range_list (c :: t)
  = utf8.DecodeRune (c :: t)
      :: range_list (drop (utf8.DecodeRune (c :: t)).2 (c :: t)).
Proof.
  unfold range_list. cbn [length range_steps]. f_equal.
  pose proof (DecodeRune_width c t) as Hw.
  apply range_steps_fuel; rewrite ?length_drop; simpl in *; lia.
Qed.

Lemma EncodeRune_length (r : rune) : (1 ≤ length (utf8.EncodeRune r) ≤ 4)%nat.
Proof.
  rewrite EncodeRune_arith, length_fmap. unfold encode_arith.
  repeat case_match; simpl; lia.
Qed.

Lemma range_list_encode (r : rune) (rest : list byte) :
  range_list (utf8.EncodeRune r ++ rest)
  = (clean r, length (utf8.EncodeRune r)) :: range_list rest.
Proof.
  pose proof (EncodeRune_length r) as Hl.
  destruct (utf8.EncodeRune r ++ rest) as [|c t] eqn:E.
  { apply (f_equal length) in E. rewrite length_app in E. simpl in E. lia. }
  rewrite range_list_cons, <- E, DecodeRune_EncodeRune. cbn [snd].
  by rewrite drop_app_length.
Qed.

Lemma range_list_flat_encode (rs : list rune) :
  range_list (rs ≫= utf8.EncodeRune)
  = (λ r, (clean r, length (utf8.EncodeRune r))) <$> rs.
Proof.
  induction rs as [|r rs IH]; [done|].
  cbn [mbind list_bind]. rewrite range_list_encode. by rewrite IH.
Qed.

Lemma range_list_widths (s : list byte) :
  sum_list (range_list s).*2 = length s.
Proof.
  induction s as [s IH] using (induction_ltof1 _ length). unfold ltof in IH.
  destruct s as [|c t]; [done|].
  rewrite range_list_cons. pose proof (DecodeRune_width c t) as Hw.
  cbn [fmap list_fmap sum_list sum_list_with snd].
  rewrite IH by (rewrite length_drop; simpl in *; lia).
  rewrite length_drop. simpl in *. lia.
Qed.

Lemma range_list_roundtrip (s : list byte) :
  Forall (λ step : rune * nat, step.1 ≠ utf8.RuneError) (range_list s) →
  (range_list s).*1 ≫= utf8.EncodeRune = s.
Proof.
  induction s as [s IH] using (induction_ltof1 _ length). unfold ltof in IH.
  destruct s as [|c t]; [done|].
  rewrite range_list_cons. pose proof (DecodeRune_width c t) as Hw.
  destruct (utf8.DecodeRune (c :: t)) as [r w] eqn:E. cbn [snd] in *.
  intros [Hr Hrest]%Forall_cons. cbn [fst] in Hr.
  cbn [fmap list_fmap mbind list_bind fst].
  rewrite (EncodeRune_DecodeRune _ _ _ E Hr).
  rewrite IH; [apply take_drop| |done].
  rewrite length_drop. simpl in *. lia.
Qed.

Lemma WriteRune_app (b : list byte) (r : rune) :
  WriteRune b r = b ++ utf8.EncodeRune r.
Proof.
  unfold WriteRune, WriteByte, utf8.EncodeRune, utf8.RuneSelf, utf8.rune1Max.
  destruct (Z.ltb_spec (uint32 r) 128), (Z.leb_spec (uint32 r) 127); done || lia.
Qed.

Lemma decode_loop (cm : gmap byte rune) (data : list byte) (buf : list byte)
    (err : option error) :
  foldl (λ (st : list byte * option error) (c : byte),
           match cm !! c with
           | Some r => (WriteRune st.1 r, st.2)
           | None => (WriteRune st.1 utf8.RuneError, Some ErrInvalidCodepoint)
           end) (buf, err) data
  = (buf ++ (decode_emit cm <$> data) ≫= utf8.EncodeRune,
     if forallb (mapped_byte cm) data then err else Some ErrInvalidCodepoint).
Proof.
  revert buf err. induction data as [|c data IH]; intros buf err.
  - by rewrite app_nil_r.
  - cbn [foldl fmap list_fmap mbind list_bind forallb].
    unfold decode_emit at 1, mapped_byte at 1.
    destruct (cm !! c) as [r|] eqn:E; cbn [fst snd default].
    + rewrite IH, WriteRune_app, <- app_assoc.
      rewrite bool_decide_true by eauto. done.
    + rewrite IH, WriteRune_app, <- app_assoc.
      rewrite bool_decide_false by (by intros [? ?]).
      cbn [andb]. by destruct (forallb _ data).
Qed.

Lemma encode_loop {A} (look : A → option byte) (data : list A) (buf : list byte)
    (err : option error) :
  foldl (λ (st : list byte * option error) (r : A),
           match look r with
           | Some c => (WriteByte st.1 c, st.2)
           | None => (WriteByte st.1 "?"%char, Some ErrInvalidCodepoint)
           end) (buf, err) data
  = (buf ++ ((λ r, default "?"%char (look r)) <$> data),
     if forallb (λ r, bool_decide (is_Some (look r))) data
     then err else Some ErrInvalidCodepoint).
Proof.
  revert buf err. induction data as [|r data IH]; intros buf err.
  - by rewrite app_nil_r.
  - cbn [foldl fmap list_fmap forallb]. unfold WriteByte.
    destruct (look r) as [c|] eqn:E; cbn [fst snd default].
    + rewrite IH, <- app_assoc. rewrite bool_decide_true by eauto. done.
    + rewrite IH, <- app_assoc. rewrite bool_decide_false by (by intros [? ?]).
      cbn [andb]. by destruct (forallb _ data).
Qed.

Lemma forallb_fmap {A B} (f : B → bool) (g : A → B) (l : list A) :
  forallb f (g <$> l) = forallb (λ a, f (g a)) l.
Proof. induction l as [|a l IH]; [done|]. cbn. by rewrite IH. Qed.

Lemma mapBytesToRunesBuffer_spec (cm : gmap byte rune) (data : list byte) :
  mapBytesToRunesBuffer cm data
  = ((decode_emit cm <$> data) ≫= utf8.EncodeRune, status (mapped_byte cm) data).
Proof. unfold mapBytesToRunesBuffer, NewBuffer. by rewrite decode_loop. Qed.

Lemma mapBytesToRunes_spec (cm : gmap byte rune) (data : string) :
  mapBytesToRunes cm data
  = (string_of_list_ascii
       ((decode_emit cm <$> list_ascii_of_string data) ≫= utf8.EncodeRune),
     status (mapped_byte cm) (list_ascii_of_string data)).
Proof. unfold mapBytesToRunes, NewBuffer, Buffer_String. by rewrite decode_loop. Qed.

Lemma mapRunesToBytes_spec (cm : gmap rune byte) (data : string) :
  mapRunesToBytes cm data
  = (string_of_list_ascii (encode_emit cm <$> range_string data),
     status (mapped_rune cm) (range_string data)).
Proof.
  unfold mapRunesToBytes, NewBuffer, Buffer_String.
  by rewrite (encode_loop (λ r, cm !! r)).
Qed.

Lemma mapRunesToBytesBuffer_spec (cm : gmap rune byte) (data : list byte) :
  mapRunesToBytesBuffer cm data
  = (encode_emit cm <$> (byte_to_Z <$> data),
     status (mapped_rune cm) (byte_to_Z <$> data)).
Proof.
  unfold mapRunesToBytesBuffer, NewBuffer.
  rewrite (encode_loop (λ r, cm !! byte_to_Z r)). unfold status.
  rewrite <- list_fmap_compose, forallb_fmap. done.
Qed.

Lemma status_None {A} (mapped : A → bool) (units : list A) :
  status mapped units = None ↔ Forall (λ u, mapped u = true) units.
Proof.
  unfold status. destruct (forallb mapped units) eqn:E.
  - split; [|done]. intros _. apply Forall_forall. intros u Hu.
    rewrite forallb_forall in E. apply E. by apply list_elem_of_In.
  - split; [done|]. intros H. exfalso.
    assert (forallb mapped units = true); [|congruence].
    apply forallb_forall. intros u Hu. rewrite Forall_forall in H. apply H.
    by apply list_elem_of_In.
Qed.

Lemma status_Some {A} (mapped : A → bool) (units : list A) :
  status mapped units = Some ErrInvalidCodepoint
  ↔ Exists (λ u, mapped u = false) units.
Proof.
  rewrite Exists_exists.
  destruct (status mapped units) eqn:E.
  - unfold status in E. destruct (forallb mapped units) eqn:F; [done|].
    injection E as <-. split; [intros _|done].
    assert (¬ Forall (λ u, mapped u = true) units) as HF.
    { rewrite <- status_None. unfold status. by rewrite F. }
    apply not_Forall_Exists in HF; [|intros u; apply _].
    apply Exists_exists in HF as (u & Hu & Hm). exists u. split; [done|].
    by apply not_true_is_false.
  - split; [done|]. intros (u & Hu & Hm). apply status_None in E.
    rewrite Forall_forall in E. specialize (E u Hu). congruence.
Qed.

Lemma status_cases {A} (mapped : A → bool) (units : list A) :
  status mapped units = None ∨ status mapped units = Some ErrInvalidCodepoint.
Proof. unfold status. destruct (forallb _ _); auto. Qed.

Lemma reverse_range_snoc (order : list (byte * rune)) (k : byte) (v : rune) :
  reverseByteRuneMap_range (order ++ [(k, v)])
  = <[v := k]> (reverseByteRuneMap_range order).
Proof. unfold reverseByteRuneMap_range. by rewrite foldl_app. Qed.

Lemma reverse_range_lookup (order : list (byte * rune)) (c : rune) :
  reverseByteRuneMap_range order !! c = last_entry c order.
Proof.
  induction order as [|[k v] order IH] using rev_ind; [done|].
  rewrite reverse_range_snoc. unfold last_entry in *. rewrite filter_app.
  destruct (decide (v = c)) as [->|Hne].
  - rewrite lookup_insert_eq, filter_cons_True, filter_nil by done.
    by rewrite last_snoc.
  - rewrite lookup_insert_ne, filter_cons_False, filter_nil, app_nil_r by done.
    done.
Qed.

Lemma last_entry_Some (c : rune) (b : byte) (order : list (byte * rune)) :
  last_entry c order = Some b → (b, c) ∈ order.
Proof.
  unfold last_entry. intros H.
  destruct (last _) as [[b' c']|] eqn:E; [|done]. injection H as ->.
  apply last_Some_elem_of, list_elem_of_filter in E as [Hc Hin].
  simpl in Hc. by subst.
Qed.

Lemma last_entry_is_Some (c : rune) (b : byte) (order : list (byte * rune)) :
  (b, c) ∈ order → is_Some (last_entry c order).
Proof.
  intros Hin. unfold last_entry. apply fmap_is_Some, last_is_Some.
  intros Hnil.
  assert ((b, c) ∈ filter (λ kv : byte * rune, kv.2 = c) order) as Hf
    by (by apply list_elem_of_filter).
  rewrite Hnil in Hf. by apply not_elem_of_nil in Hf.
Qed.

Lemma filter_rune_none (c : rune) (l : list (byte * rune)) :
  (∀ b, (b, c) ∉ l) → filter (λ kv : byte * rune, kv.2 = c) l = [].
Proof.
  induction l as [|[k v] l IH]; intros H; [done|].
  rewrite filter_cons_False.
  - apply IH. intros b Hb. apply (H b). by right.
  - simpl. intros ->. apply (H k). by left.
Qed.

Lemma last_entry_later (c : rune) (b1 b2 : byte) (l1 l2 l3 : list (byte * rune)) :
  (∀ b, (b, c) ∉ l3) →
  last_entry c (l1 ++ (b1, c) :: l2 ++ (b2, c) :: l3) = Some b2.
Proof.
  intros Hl3. unfold last_entry.
  rewrite filter_app, filter_cons_True, filter_app, filter_cons_True by done.
  rewrite (filter_rune_none c l3) by done.
  rewrite app_comm_cons, app_assoc. by rewrite last_snoc.
Qed.

Lemma range_map_elem_of (m : gmap byte rune) (order : list (byte * rune))
    (b : byte) (c : rune) :
  range_map m order → (b, c) ∈ order ↔ m !! b = Some c.
Proof. unfold range_map. intros ->. apply elem_of_map_to_list. Qed.

Lemma range_map_NoDup (m : gmap byte rune) (order : list (byte * rune)) :
  range_map m order → NoDup order.*1.
Proof. unfold range_map. intros ->. apply NoDup_fst_map_to_list. Qed.

Lemma range_map_canonical (m : gmap byte rune) : range_map m (map_to_list m).
Proof. unfold range_map. reflexivity. Qed.

Lemma reverse_range_sound (m : gmap byte rune) (order : list (byte * rune))
    (c : rune) (b : byte) :
  range_map m order →
  reverseByteRuneMap_range order !! c = Some b → m !! b = Some c.
Proof.
  intros Hr. rewrite reverse_range_lookup. intros H%last_entry_Some.
  by apply (range_map_elem_of m order).
Qed.

Lemma reverse_range_complete (m : gmap byte rune) (order : list (byte * rune))
    (c : rune) (b : byte) :
  range_map m order →
  m !! b = Some c → is_Some (reverseByteRuneMap_range order !! c).
Proof.
  intros Hr Hm. rewrite reverse_range_lookup. apply (last_entry_is_Some c b).
  by apply (range_map_elem_of m order).
Qed.

Lemma reverse_range_injective (m : gmap byte rune) (order : list (byte * rune)) :
  injective_table m → range_map m order →
  reverseByteRuneMap_range order = reverseByteRuneMap m.
Proof.
  intros Hinj Hr. apply map_eq. intros c. unfold reverseByteRuneMap.
  destruct (reverseByteRuneMap_range order !! c) as [b|] eqn:E1;
    destruct (reverseByteRuneMap_range (map_to_list m) !! c) as [b'|] eqn:E2;
    try done.
  - apply (reverse_range_sound m _ _ _ Hr) in E1.
    apply (reverse_range_sound m _ _ _ (range_map_canonical m)) in E2.
    f_equal. eauto.
  - apply (reverse_range_sound m _ _ _ Hr) in E1.
    apply (reverse_range_complete m _ _ _ (range_map_canonical m)) in E1 as [? ?].
    congruence.
  - apply (reverse_range_sound m _ _ _ (range_map_canonical m)) in E2.
    apply (reverse_range_complete m _ _ _ Hr) in E2 as [? ?].
    congruence.
Qed.

Lemma table_injective_check_sound (m : gmap byte rune) :
  table_injective_check m = true → injective_table m.
Proof.
  unfold table_injective_check. intros Hnd%bool_decide_eq_true b1 b2 c H1 H2.
  apply elem_of_map_to_list in H1, H2.
  revert Hnd H1 H2. generalize (map_to_list m) as l.
  induction l as [|[k v] l IH]; intros Hnd H1 H2.
  - by apply elem_of_nil in H1.
  - cbn [fmap list_fmap snd] in Hnd. apply NoDup_cons in Hnd as [Hv Hnd].
    apply elem_of_cons in H1 as [E1|H1]; apply elem_of_cons in H2 as [E2|H2].
    + congruence.
    + injection E1 as -> ->. exfalso. apply Hv.
      apply list_elem_of_fmap. by exists (b2, v).
    + injection E2 as -> ->. exfalso. apply Hv.
      apply list_elem_of_fmap. by exists (b1, v).
    + by apply IH.
Qed.

Lemma iso_8859_2_injective : injective_table iso_8859_2.charmapDecode.
Proof. apply table_injective_check_sound. by vm_compute. Qed.

Lemma iso_8859_14_injective : injective_table iso_8859_14.charmapDecode.
Proof. apply table_injective_check_sound. by vm_compute. Qed.

(** The encode tables of the two codecs do not depend on the order in which
    [reverseByteRuneMap] ranged over the decode tables. *)
Lemma iso_8859_2_charmapEncode_any_order (order : list (byte * rune)) :
  range_map iso_8859_2.charmapDecode order →
  reverseByteRuneMap_range order = iso_8859_2.charmapEncode.
Proof. apply reverse_range_injective, iso_8859_2_injective. Qed.

Lemma iso_8859_14_charmapEncode_any_order (order : list (byte * rune)) :
  range_map iso_8859_14.charmapDecode order →
  reverseByteRuneMap_range order = iso_8859_14.charmapEncode.
Proof. apply reverse_range_injective, iso_8859_14_injective. Qed.

(** Both decode tables map each of the 256 bytes. *)
Example tables_total :
  size iso_8859_2.charmapDecode = 256%nat
  ∧ size iso_8859_14.charmapDecode = 256%nat.
Proof. by vm_compute. Qed.

Lemma iso_8859_2_table_codec : table_codec iso_8859_2.newCodec.
Proof.
  split.
  - intros r b. apply reverse_range_sound, range_map_canonical.
  - by vm_compute.
Qed.

Lemma iso_8859_14_table_codec : table_codec iso_8859_14.newCodec.
Proof.
  split.
  - intros r b. apply reverse_range_sound, range_map_canonical.
  - by vm_compute.
Qed.

Lemma registered_inv (name : string) (c : codecMap8Bit) :
  codecsMap package !! name = Some c →
  (name = "ISO-8859-2" ∧ c = iso_8859_2.newCodec)
  ∨ (name = "ISO-8859-14" ∧ c = iso_8859_14.newCodec).
Proof.
  unfold package, iso_8859_2.init, iso_8859_14.init, register. cbn [codecsMap].
  intros [[<- <-]|[_ [[<- <-]|[_ H]]%lookup_insert_Some]]%lookup_insert_Some;
    [by left|by right|done].
Qed.

Lemma registered_table_codec (name : string) (c : codecMap8Bit) :
  codecsMap package !! name = Some c → table_codec c.
Proof.
  intros [[_ ->]|[_ ->]]%registered_inv;
    [apply iso_8859_2_table_codec|apply iso_8859_14_table_codec].
Qed.

Section Labels.
Variable unicode_ToUpper : rune → rune.

Lemma registered_resolves (name : string) (c : codecMap8Bit) :
  codecsMap package !! name = Some c →
  getCodecForEncoding unicode_ToUpper name = name.
Proof. by intros [[-> _]|[-> _]]%registered_inv; vm_compute. Qed.
End Labels.

Lemma range_string_list (data : string) :
  range_string data = (range_list (list_ascii_of_string data)).*1.
Proof. done. Qed.

Lemma string_length_list (s : string) :
  String.length s = length (list_ascii_of_string s).
Proof. induction s as [|c s IH]; [done|]. simpl. by rewrite IH. Qed.

Lemma clean_valid (r : rune) : utf8.ValidRune r = true → clean r = r.
Proof.
  unfold clean, utf8.ValidRune, uint32, utf8.surrogateMin, utf8.surrogateMax,
    utf8.MaxRune.
  intros H. rewrite Z.mod_small; [by rewrite H|].
  change (2 ^ 32) with 4294967296. lia.
Qed.

Lemma decode_emit_valid (m : gmap byte rune) (b : byte) :
  table_valid_check m = true → utf8.ValidRune (decode_emit m b) = true.
Proof.
  unfold table_valid_check, decode_emit. intros H.
  destruct (m !! b) as [r|] eqn:E; [|done].
  rewrite forallb_forall in H. apply elem_of_map_to_list, list_elem_of_In in E.
  apply (H _ E).
Qed.

Lemma registered_table_valid (name : string) (c : codecMap8Bit) :
  codecsMap package !! name = Some c → table_valid_check (DecodeMap c) = true.
Proof. by intros [[_ ->]|[_ ->]]%registered_inv; vm_compute. Qed.

Lemma filter_length_pos {A} (P : A → Prop) `{!∀ x, Decision (P x)} (l : list A) :
  (1 ≤ length (filter P l))%nat → ∃ x, x ∈ l ∧ P x.
Proof.
  intros Hlen. destruct (filter P l) as [|x l'] eqn:E; [simpl in Hlen; lia|].
  exists x. apply and_comm, (list_elem_of_filter P). rewrite E. by left.
Qed.

(** ** The facade on a registered name *)

Section Delegation.
Variable unicode_ToUpper : rune → rune.

Lemma facade_delegates (name : string) (c : codecMap8Bit) :
  codecsMap package !! name = Some c →
  (∀ data, Encode unicode_ToUpper data name = codec_Encode c data)
  ∧ (∀ data, Decode unicode_ToUpper data name = codec_Decode c data)
  ∧ (∀ data, EncodeToBuffer unicode_ToUpper data name = codec_EncodeToBuffer c data)
  ∧ (∀ data, DecodeToBuffer unicode_ToUpper data name = codec_DecodeToBuffer c data).
Proof.
  intros H. unfold Encode, Decode, EncodeToBuffer, DecodeToBuffer.
  rewrite (registered_resolves _ _ _ H), H. done.
Qed.
End Delegation.

(** ** The two methods of a table codec *)

Lemma codec_Decode_spec (c : codecMap8Bit) (data : string) :
  codec_Decode c data
  = (string_of_list_ascii
       ((decode_emit (DecodeMap c) <$> list_ascii_of_string data)
          ≫= utf8.EncodeRune),
     status (mapped_byte (DecodeMap c)) (list_ascii_of_string data)).
Proof. apply mapBytesToRunes_spec. Qed.

Lemma codec_Encode_spec (c : codecMap8Bit) (data : string) :
  codec_Encode c data
  = (string_of_list_ascii (encode_emit (EncodeMap c) <$> range_string data),
     status (mapped_rune (EncodeMap c)) (range_string data)).
Proof. apply mapRunesToBytes_spec. Qed.

(** The runes of the decoded text, one for each byte of the input. *)
Lemma codec_Decode_runes (c : codecMap8Bit) (data : string) :
  range_string (codec_Decode c data).1
  = clean <$> (decode_emit (DecodeMap c) <$> list_ascii_of_string data).
Proof.
  rewrite codec_Decode_spec. cbn [fst].
  rewrite range_string_list, list_ascii_of_string_of_list_ascii.
  by rewrite range_list_flat_encode, <- list_fmap_compose.
Qed.

Lemma status_unmapped_byte (cm : gmap byte rune) (bytes : list byte) :
  status (mapped_byte cm) bytes = Some ErrInvalidCodepoint
  ↔ ∃ b, b ∈ bytes ∧ cm !! b = None.
Proof.
  rewrite status_Some, Exists_exists. unfold mapped_byte.
  apply exist_proper. intros b. apply and_iff_compat_l.
  by rewrite bool_decide_eq_false, <- eq_None_not_Some.
Qed.

Lemma status_all_bytes_mapped (cm : gmap byte rune) (bytes : list byte) :
  status (mapped_byte cm) bytes = None ↔ ∀ b, b ∈ bytes → is_Some (cm !! b).
Proof.
  rewrite status_None, Forall_forall. unfold mapped_byte.
  apply forall_proper. intros b. apply forall_proper. intros _.
  by rewrite bool_decide_eq_true.
Qed.

Lemma status_unmapped_rune (cm : gmap rune byte) (runes : list rune) :
  status (mapped_rune cm) runes = Some ErrInvalidCodepoint
  ↔ ∃ r, r ∈ runes ∧ cm !! r = None.
Proof.
  rewrite status_Some, Exists_exists. unfold mapped_rune.
  apply exist_proper. intros r. apply and_iff_compat_l.
  by rewrite bool_decide_eq_false, <- eq_None_not_Some.
Qed.

Lemma status_all_runes_mapped (cm : gmap rune byte) (runes : list rune) :
  status (mapped_rune cm) runes = None ↔ ∀ r, r ∈ runes → is_Some (cm !! r).
Proof.
  rewrite status_None, Forall_forall. unfold mapped_rune.
  apply forall_proper. intros r. apply forall_proper. intros _.
  by rewrite bool_decide_eq_true.
Qed.

Lemma flat_encode_length (rs : list rune) :
  (length rs ≤ length (rs ≫= utf8.EncodeRune))%nat.
Proof.
  induction rs as [|r rs IH]; [done|].
  cbn [mbind list_bind]. rewrite length_app. cbn [length].
  pose proof (EncodeRune_length r). lia.
Qed.

(** Round trip through a codec whose encode table inverts its decode
    table. *)
Lemma table_codec_round_trip (c : codecMap8Bit) (text : string) :
  table_codec c →
  Forall (λ r, is_Some (EncodeMap c !! r)) (range_string text) →
  ∃ enc, codec_Encode c text = (enc, None) ∧ codec_Decode c enc = (text, None).
Proof.
  intros [Hinv Hrep] Hall. eexists. rewrite codec_Encode_spec. split.
  - f_equal. apply status_None. eapply Forall_impl; [exact Hall|].
    intros r Hr. by apply bool_decide_eq_true.
  - rewrite codec_Decode_spec, list_ascii_of_string_of_list_ascii.
    rewrite <- list_fmap_compose.
    assert (Forall (λ r, (decode_emit (DecodeMap c) ∘ encode_emit (EncodeMap c)) r = r
                         ∧ mapped_byte (DecodeMap c) (encode_emit (EncodeMap c) r) = true)
                   (range_string text)) as Hdec.
    { eapply Forall_impl; [exact Hall|]. intros r [b Hb]. cbn.
      unfold compose, decode_emit, encode_emit, mapped_byte. rewrite Hb. simpl.
      rewrite (Hinv _ _ Hb). split; [done|]. apply bool_decide_eq_true. eauto. }
    f_equal.
    + rewrite (Forall_fmap_ext_1 _ id);
        [|eapply Forall_impl; [exact Hdec|]; by intros ? [? ?]].
      rewrite list_fmap_id, range_string_list, range_list_roundtrip.
      { apply string_of_list_ascii_of_string. }
      rewrite range_string_list, Forall_fmap in Hall.
      eapply Forall_impl; [exact Hall|]. intros [r w] [b Hb] Heq. cbn in *.
      subst. congruence.
    + apply status_None, Forall_fmap.
      eapply Forall_impl; [exact Hdec|]. by intros ? [? ?].
Qed.

(** * The properties of the specification *)

(** C1. Round trip on mappable text: for every registered codec and every
    text whose runes all have an entry in the encode table of the codec,
    [Encode] returns some [enc] and no error, and [Decode] of [enc] returns
    the text and no error. *)
Theorem round_trip_on_mappable_text (unicode_ToUpper : rune → rune)
    (name : string) (c : codecMap8Bit) (text : string) :
  codecsMap package !! name = Some c →
  Forall (λ r, is_Some (EncodeMap c !! r)) (range_string text) →
  ∃ enc,
    Encode unicode_ToUpper text name = (enc, None)
    ∧ Decode unicode_ToUpper enc name = (text, None).
Proof.
  intros Hreg Hall.
  destruct (table_codec_round_trip c text) as (enc & He & Hd);
    [by eapply registered_table_codec|done|].
  destruct (facade_delegates unicode_ToUpper name c Hreg) as (HE & HD & _).
  exists enc. by rewrite HE, HD.
Qed.

Lemma round_trip_on_mappable_text_witness :
  ∃ enc, Encode id "Zażółć gęślą jaźń" "ISO-8859-2" = (enc, None)
         ∧ Decode id enc "ISO-8859-2" = ("Zażółć gęślą jaźń", None).
Proof.
  apply (round_trip_on_mappable_text id "ISO-8859-2" iso_8859_2.newCodec).
  - reflexivity.
  - apply (bool_decide_unpack _). vm_compute. exact I.
Defined.

(** C2. Unknown encoding: when the resolved label has no registered codec,
    each of [Encode], [Decode], [EncodeToBuffer] and [DecodeToBuffer]
    returns its input unchanged, with [ErrUnknownEncoding]. *)
Theorem unknown_encoding_returns_input (unicode_ToUpper : rune → rune)
    (encoding : string) (text : string) (data : list byte) :
  codecsMap package !! getCodecForEncoding unicode_ToUpper encoding = None →
  Encode unicode_ToUpper text encoding = (text, Some ErrUnknownEncoding)
  ∧ Decode unicode_ToUpper text encoding = (text, Some ErrUnknownEncoding)
  ∧ EncodeToBuffer unicode_ToUpper data encoding = (data, Some ErrUnknownEncoding)
  ∧ DecodeToBuffer unicode_ToUpper data encoding = (data, Some ErrUnknownEncoding).
Proof.
  intros H. unfold Encode, Decode, EncodeToBuffer, DecodeToBuffer, NewBuffer.
  by rewrite H.
Qed.

Lemma unknown_encoding_returns_input_witness :
  Encode id "Zażółć" "NOT-A-REAL-ENCODING" = ("Zażółć", Some ErrUnknownEncoding)
  ∧ Decode id "Zażółć" "NOT-A-REAL-ENCODING" = ("Zażółć", Some ErrUnknownEncoding)
  ∧ EncodeToBuffer id ["a"; "b"]%char "NOT-A-REAL-ENCODING"
    = (["a"; "b"]%char, Some ErrUnknownEncoding)
  ∧ DecodeToBuffer id ["a"; "b"]%char "NOT-A-REAL-ENCODING"
    = (["a"; "b"]%char, Some ErrUnknownEncoding).
Proof.
  apply (unknown_encoding_returns_input id "NOT-A-REAL-ENCODING").
  vm_compute. reflexivity.
Defined.

(** C3. Decoding substitutes and continues.  For every codec, hence for
    every registered one, the text [Decode] returns is the UTF-8 writing of
    one rune for each byte of the input, in order: the rune the decode table
    gives for the byte, the replacement rune U+FFFD when it gives none; the
    runes read back from the text are these ([clean] is the identity on a
    Unicode scalar value, which every rune of a shipped table is).  The
    error is [ErrInvalidCodepoint] exactly when a byte of the input has no
    entry, and [nil] exactly when every byte has one.  On a registered name
    the facade returns what the codec returns. *)
Theorem Decode_substitutes_and_continues (unicode_ToUpper : rune → rune)
    (c : codecMap8Bit) (data : string) :
  let bytes := list_ascii_of_string data in
  let result := codec_Decode c data in
  result.1 = string_of_list_ascii
               ((decode_emit (DecodeMap c) <$> bytes) ≫= utf8.EncodeRune)
  ∧ range_string result.1 = clean <$> (decode_emit (DecodeMap c) <$> bytes)
  ∧ (∀ b, DecodeMap c !! b = None → decode_emit (DecodeMap c) b = 0xFFFD)
  ∧ (∀ b r, DecodeMap c !! b = Some r → decode_emit (DecodeMap c) b = r)
  ∧ (result.2 = Some ErrInvalidCodepoint
     ↔ ∃ b, b ∈ bytes ∧ DecodeMap c !! b = None)
  ∧ (result.2 = None ↔ ∀ b, b ∈ bytes → is_Some (DecodeMap c !! b))
  ∧ (∀ name, codecsMap package !! name = Some c →
       Decode unicode_ToUpper data name = result
       ∧ range_string result.1 = decode_emit (DecodeMap c) <$> bytes).
Proof.
  intros bytes result. subst result bytes.
  pose proof (codec_Decode_runes c data) as Hrunes.
  rewrite codec_Decode_spec in *. cbn [fst snd] in *.
  split_and!.
  - done.
  - done.
  - intros b Hb. unfold decode_emit. by rewrite Hb.
  - intros b r Hb. unfold decode_emit. by rewrite Hb.
  - apply status_unmapped_byte.
  - apply status_all_bytes_mapped.
  - intros name Hreg. split.
    + destruct (facade_delegates unicode_ToUpper name c Hreg) as (_ & HD & _).
      by rewrite HD, codec_Decode_spec.
    + rewrite Hrunes, <- list_fmap_compose.
      apply Forall_fmap_ext_1, Forall_forall. intros b _. cbn.
      apply clean_valid, decode_emit_valid. by eapply registered_table_valid.
Qed.

Lemma Decode_substitutes_and_continues_witness :
  Decode id (String "161" (String "065" EmptyString)) "ISO-8859-2" = ("ĄA", None)
  ∧ range_string "ĄA" = [0x104; 0x41].
Proof.
  pose proof (Decode_substitutes_and_continues id iso_8859_2.newCodec
                (String "161" (String "065" EmptyString))) as H.
  cbv zeta in H. destruct H as (_ & _ & _ & _ & _ & _ & H).
  destruct (H "ISO-8859-2" eq_refl) as [H1 H2].
  split; [exact H1|exact H2].
Defined.

(** C4. Encoding substitutes and continues.  For every codec, hence for
    every registered one, [Encode] returns one byte for each rune of the
    iteration over the input, in order: the byte the encode table gives for
    the rune, the byte of ['?'] (0x3F) when it gives none.  The error is
    [ErrInvalidCodepoint] exactly when a rune of the input has no entry, and
    [nil] exactly when every rune has one.  On a registered name the facade
    returns what the codec returns. *)
Theorem Encode_substitutes_and_continues (unicode_ToUpper : rune → rune)
    (c : codecMap8Bit) (data : string) :
  let runes := range_string data in
  let result := codec_Encode c data in
  result.1 = string_of_list_ascii (encode_emit (EncodeMap c) <$> runes)
  ∧ (∀ r, EncodeMap c !! r = None →
       byte_to_Z (encode_emit (EncodeMap c) r) = 0x3F)
  ∧ (∀ r b, EncodeMap c !! r = Some b → encode_emit (EncodeMap c) r = b)
  ∧ (result.2 = Some ErrInvalidCodepoint
     ↔ ∃ r, r ∈ runes ∧ EncodeMap c !! r = None)
  ∧ (result.2 = None ↔ ∀ r, r ∈ runes → is_Some (EncodeMap c !! r))
  ∧ (∀ name, codecsMap package !! name = Some c →
       Encode unicode_ToUpper data name = result).
Proof.
  intros runes result. subst result runes.
  rewrite codec_Encode_spec. cbn [fst snd].
  split_and!.
  - done.
  - intros r Hr. unfold encode_emit. by rewrite Hr.
  - intros r b Hr. unfold encode_emit. by rewrite Hr.
  - apply status_unmapped_rune.
  - apply status_all_runes_mapped.
  - intros name Hreg.
    destruct (facade_delegates unicode_ToUpper name c Hreg) as (HE & _).
    by rewrite HE, codec_Encode_spec.
Qed.

Lemma Encode_substitutes_and_continues_witness :
  Encode id "Ą€A" "ISO-8859-2"
  = (String "161" (String "?" (String "A" EmptyString)), Some ErrInvalidCodepoint).
Proof.
  pose proof (Encode_substitutes_and_continues id iso_8859_2.newCodec "Ą€A") as H.
  cbv zeta in H. destruct H as (_ & _ & _ & _ & _ & H).
  exact (H "ISO-8859-2" eq_refl).
Defined.

(** C5. Substitution, not truncation.  For every codec, hence for every
    registered one: the text [Decode] returns holds as many runes as the
    input holds bytes (and no fewer bytes), and [Encode] returns as many
    bytes as the iteration over the input yields runes; with at least one
    unmappable unit the error is [ErrInvalidCodepoint].  On a registered
    name the facade returns what the codec returns. *)
Theorem substitution_not_truncation (unicode_ToUpper : rune → rune)
    (c : codecMap8Bit) (data : string) :
  (RuneCountInString (codec_Decode c data).1 = String.length data
   ∧ (String.length data ≤ String.length (codec_Decode c data).1)%nat
   ∧ ((1 ≤ unmappable_bytes c data)%nat →
        (codec_Decode c data).2 = Some ErrInvalidCodepoint))
  ∧ (String.length (codec_Encode c data).1 = RuneCountInString data
     ∧ ((1 ≤ unmappable_runes c data)%nat →
          (codec_Encode c data).2 = Some ErrInvalidCodepoint))
  ∧ (∀ name, codecsMap package !! name = Some c →
       Decode unicode_ToUpper data name = codec_Decode c data
       ∧ Encode unicode_ToUpper data name = codec_Encode c data).
Proof.
  split_and!.
  - unfold RuneCountInString. rewrite codec_Decode_runes, !length_fmap.
    by rewrite string_length_list.
  - rewrite codec_Decode_spec. cbn [fst].
    rewrite !string_length_list, list_ascii_of_string_of_list_ascii.
    etrans; [|apply flat_encode_length]. by rewrite length_fmap.
  - intros Hk. rewrite codec_Decode_spec. cbn [snd].
    apply status_unmapped_byte. by apply filter_length_pos in Hk.
  - rewrite codec_Encode_spec. cbn [fst].
    rewrite string_length_list, list_ascii_of_string_of_list_ascii.
    by rewrite length_fmap.
  - intros Hk. rewrite codec_Encode_spec. cbn [snd].
    apply status_unmapped_rune. by apply filter_length_pos in Hk.
  - intros name Hreg.
    destruct (facade_delegates unicode_ToUpper name c Hreg) as (HE & HD & _).
    by rewrite HE, HD.
Qed.

Lemma substitution_not_truncation_witness :
  (RuneCountInString (codec_Decode partial_codec "AxA").1 = 3%nat
   ∧ (codec_Decode partial_codec "AxA").2 = Some ErrInvalidCodepoint)
  ∧ (String.length (Encode id "Ą€A" "ISO-8859-2").1 = 3%nat
     ∧ (Encode id "Ą€A" "ISO-8859-2").2 = Some ErrInvalidCodepoint).
Proof.
  split.
  - destruct (substitution_not_truncation id partial_codec "AxA")
      as ((Hn & _ & Hk) & _).
    split; [exact Hn|]. apply Hk. vm_compute. lia.
  - destruct (substitution_not_truncation id iso_8859_2.newCodec "Ą€A")
      as (_ & (Hn & Hk) & Hf).
    destruct (Hf "ISO-8859-2" eq_refl) as [_ ->].
    split; [exact Hn|]. apply Hk. vm_compute. lia.
Defined.

(** C6. Alias equivalence: [Decode] gives the same text and the same error
    under the labels "8859-2", "ISO-8859-2" and "iso_8859_2", because the
    label is put in upper case, every ['_'] becomes ['-'], and the alias
    "8859-2" is registered for "ISO-8859-2": the three labels resolve to
    "ISO-8859-2". *)
Theorem alias_equivalence (unicode_ToUpper : rune → rune) (data : string) :
  Decode unicode_ToUpper data "8859-2" = Decode unicode_ToUpper data "ISO-8859-2"
  ∧ Decode unicode_ToUpper data "iso_8859_2"
    = Decode unicode_ToUpper data "ISO-8859-2"
  ∧ strings_Replace (strings_ToUpper unicode_ToUpper "iso_8859_2") "_" "-"
    = "ISO-8859-2"
  ∧ aliasesMap package !! "8859-2" = Some "ISO-8859-2"
  ∧ getCodecForEncoding unicode_ToUpper "8859-2" = "ISO-8859-2"
  ∧ getCodecForEncoding unicode_ToUpper "iso_8859_2" = "ISO-8859-2"
  ∧ getCodecForEncoding unicode_ToUpper "ISO-8859-2" = "ISO-8859-2".
Proof.
  assert (getCodecForEncoding unicode_ToUpper "8859-2" = "ISO-8859-2") as H1
    by (by vm_compute).
  assert (getCodecForEncoding unicode_ToUpper "iso_8859_2" = "ISO-8859-2") as H2
    by (by vm_compute).
  assert (getCodecForEncoding unicode_ToUpper "ISO-8859-2" = "ISO-8859-2") as H3
    by (by vm_compute).
  split_and!; [| |by vm_compute..|done|done|done].
  - unfold Decode. by rewrite H1, H3.
  - unfold Decode. by rewrite H2, H3.
Qed.

(** The decoding half of the buffer variants agrees with [Decode], under
    every label. *)
Lemma DecodeToBuffer_agrees (unicode_ToUpper : rune → rune)
    (data : list byte) (encoding : string) :
  let b := DecodeToBuffer unicode_ToUpper data encoding in
  let s := Decode unicode_ToUpper (string_of_list_ascii data) encoding in
  Buffer_String b.1 = s.1 ∧ b.2 = s.2.
Proof.
  cbv zeta. unfold DecodeToBuffer, Decode.
  destruct (codecsMap package !! _) as [c|]; [|done].
  cbn [codec_Decode codec_DecodeToBuffer codecMap8Bit_codec].
  rewrite mapBytesToRunesBuffer_spec, mapBytesToRunes_spec.
  by rewrite list_ascii_of_string_of_list_ascii.
Qed.

(** The encoding half agrees with [Encode] on ASCII input. *)
Lemma range_list_ascii (data : list byte) :
  Forall (λ b, byte_to_Z b < 0x80) data →
  (range_list data).*1 = byte_to_Z <$> data.
Proof.
  induction 1 as [|b data Hb Hall IH]; [done|].
  rewrite range_list_cons, DecodeRune_arith. cbn [decode_arith].
  rewrite (proj2 (Z.ltb_lt _ _) Hb). cbn [snd fst fmap list_fmap drop].
  by rewrite <- IH.
Qed.

Lemma EncodeToBuffer_agrees_on_ascii (unicode_ToUpper : rune → rune)
    (data : list byte) (encoding : string) :
  Forall (λ b, byte_to_Z b < 0x80) data →
  let b := EncodeToBuffer unicode_ToUpper data encoding in
  let s := Encode unicode_ToUpper (string_of_list_ascii data) encoding in
  Buffer_String b.1 = s.1 ∧ b.2 = s.2.
Proof.
  intros Hascii. cbv zeta. unfold EncodeToBuffer, Encode.
  destruct (codecsMap package !! _) as [c|]; [|done].
  cbn [codec_Encode codec_EncodeToBuffer codecMap8Bit_codec].
  rewrite mapRunesToBytesBuffer_spec, mapRunesToBytes_spec.
  rewrite range_string_list, list_ascii_of_string_of_list_ascii.
  by rewrite range_list_ascii.
Qed.

(** C7. The buffer variant of [Encode] does not behave as [Encode]: its loop
    ranges over the bytes of the input, not over its runes.  On the two bytes
    of U+0104 under ISO-8859-2, [Encode] returns the byte A1 and
    [EncodeToBuffer] the bytes C4 84. *)
Theorem EncodeToBuffer_ranges_over_bytes :
  Encode id "Ą" "ISO-8859-2" = (String "161" EmptyString, None)
  ∧ EncodeToBuffer id (list_ascii_of_string "Ą") "ISO-8859-2"
    = (["196"; "132"]%char, None)
  ∧ Buffer_String (EncodeToBuffer id (list_ascii_of_string "Ą") "ISO-8859-2").1
    ≠ (Encode id "Ą" "ISO-8859-2").1.
Proof. split_and!; [by vm_compute..|]. by vm_compute. Qed.

Lemma List_range_fst (order : list (string * codecMap8Bit)) :
  List_range order = order.*1.
Proof.
  unfold List_range.
  assert (∀ acc, foldl (λ (list : list string) (kv : string * codecMap8Bit),
                          list ++ [kv.1]) acc order = acc ++ order.*1) as H.
  { induction order as [|kv order IH]; intros acc; cbn.
    - by rewrite app_nil_r.
    - by rewrite IH, <- app_assoc. }
  apply (H []).
Qed.

Lemma List_returns_registered (l : list string) (name : string) :
  List_returns l → name ∈ l → is_Some (codecsMap package !! name).
Proof.
  intros (order & Hp & ->) Hin. rewrite List_range_fst in Hin.
  apply list_elem_of_fmap in Hin as ([n c] & -> & Hin). cbn.
  rewrite Hp in Hin. apply elem_of_map_to_list in Hin. eauto.
Qed.

(** C8. List consistency: every name of a slice [List] may return resolves
    to a registered codec, to which [Decode] and [Encode] delegate; neither
    returns [ErrUnknownEncoding]. *)
Theorem List_names_resolve (unicode_ToUpper : rune → rune)
    (l : list string) (name : string) (data : string) :
  List_returns l → name ∈ l →
  (∃ c, codecsMap package !! getCodecForEncoding unicode_ToUpper name = Some c
        ∧ Decode unicode_ToUpper data name = codec_Decode c data
        ∧ Encode unicode_ToUpper data name = codec_Encode c data)
  ∧ (Decode unicode_ToUpper data name).2 ≠ Some ErrUnknownEncoding
  ∧ (Encode unicode_ToUpper data name).2 ≠ Some ErrUnknownEncoding.
Proof.
  intros Hl Hin. destruct (List_returns_registered l name Hl Hin) as [c Hc].
  destruct (facade_delegates unicode_ToUpper name c Hc) as (HE & HD & _).
  split_and!.
  - exists c. by rewrite (registered_resolves _ _ _ Hc), HD, HE.
  - rewrite HD, codec_Decode_spec. cbn [snd].
    by destruct (status_cases (mapped_byte (DecodeMap c))
                   (list_ascii_of_string data)) as [-> | ->].
  - rewrite HE, codec_Encode_spec. cbn [snd].
    by destruct (status_cases (mapped_rune (EncodeMap c))
                   (range_string data)) as [-> | ->].
Qed.

Lemma List_names_resolve_witness :
  (Decode id "abc" "ISO-8859-14").2 ≠ Some ErrUnknownEncoding
  ∧ (Encode id "abc" "ISO-8859-14").2 ≠ Some ErrUnknownEncoding.
Proof.
  apply (List_names_resolve id (List_range (map_to_list (codecsMap package)))
           "ISO-8859-14" "abc").
  - exists (map_to_list (codecsMap package)). split; reflexivity.
  - apply (bool_decide_unpack _). vm_compute. exact I.
Defined.

(** C9. The derived encode table inverts the decode table.  Along any order
    in which the map may be ranged over: an entry [c ↦ b] of the new map
    comes from an entry [b ↦ c] of the table; every rune of the table has an
    entry; the entry of [c] is the last one constructed, that is the byte of
    the last pair of the order whose rune is [c], so that of two bytes that
    decode to [c] the one ranged over later survives and the other does
    not.  For an injective table the new map does not depend on the
    order. *)
Theorem reverseByteRuneMap_inverts (m : gmap byte rune)
    (order : list (byte * rune)) :
  range_map m order →
  let newmap := reverseByteRuneMap_range order in
  (∀ c b, newmap !! c = Some b → m !! b = Some c)
  ∧ (∀ b c, m !! b = Some c → is_Some (newmap !! c))
  ∧ (∀ c, newmap !! c = last_entry c order)
  ∧ (∀ b1 b2 c l1 l2 l3,
       order = l1 ++ (b1, c) :: l2 ++ (b2, c) :: l3 →
       (∀ b, (b, c) ∉ l3) →
       b1 ≠ b2 ∧ m !! b1 = Some c ∧ m !! b2 = Some c
       ∧ newmap !! c = Some b2 ∧ newmap !! c ≠ Some b1)
  ∧ (injective_table m → newmap = reverseByteRuneMap m).
Proof.
  intros Hr newmap. subst newmap. split_and!.
  - intros c b. by apply reverse_range_sound.
  - intros b c. by apply reverse_range_complete.
  - apply reverse_range_lookup.
  - intros b1 b2 c l1 l2 l3 -> Hl3.
    assert (b1 ≠ b2) as Hne.
    { pose proof (range_map_NoDup m _ Hr) as Hnd.
      rewrite fmap_app, fmap_cons, fmap_app, fmap_cons in Hnd. cbn [fst] in Hnd.
      apply NoDup_app in Hnd as (_ & _ & Hnd).
      apply NoDup_cons in Hnd as [Hnd _]. intros ->. apply Hnd.
      apply elem_of_app. right. by left. }
    rewrite reverse_range_lookup, last_entry_later by done.
    split_and!; [done| | |done|congruence].
    + apply (range_map_elem_of m _ b1 c Hr). apply elem_of_app. right. by left.
    + apply (range_map_elem_of m _ b2 c Hr). apply elem_of_app. right. right.
      apply elem_of_app. right. by left.
  - intros Hinj. by apply reverse_range_injective.
Qed.

Lemma reverseByteRuneMap_inverts_witness :
  reverseByteRuneMap_range [("A"%char, 0x100); ("B"%char, 0x100)] !! 0x100
    = Some "B"%char
  ∧ reverseByteRuneMap_range [("B"%char, 0x100); ("A"%char, 0x100)] !! 0x100
    = Some "A"%char.
Proof.
  split.
  - assert (range_map two_to_one [("A"%char, 0x100); ("B"%char, 0x100)]) as Hr.
    { unfold range_map. vm_compute. reflexivity. }
    destruct (reverseByteRuneMap_inverts _ _ Hr) as (_ & _ & _ & H & _).
    apply (H "A"%char "B"%char 0x100 [] [] []); [reflexivity|].
    intros b Hb. by apply elem_of_nil in Hb.
  - assert (range_map two_to_one [("B"%char, 0x100); ("A"%char, 0x100)]) as Hr.
    { unfold range_map. vm_compute. apply perm_swap. }
    destruct (reverseByteRuneMap_inverts _ _ Hr) as (_ & _ & _ & H & _).
    apply (H "B"%char "A"%char 0x100 [] [] []); [reflexivity|].
    intros b Hb. by apply elem_of_nil in Hb.
Defined.

(** C10. [Encode] on a string that is not valid UTF-8.  For every registered
    codec: the replacement rune has no entry in the encode table; the steps
    of the iteration cover the whole input (their widths add up to its
    length), and the output holds one byte for each step; a step that is an
    invalid byte, which the iteration yields as U+FFFD with width one, gives
    the byte of ['?'] (0x3F) at its place; and when the input is not valid
    UTF-8 the error is [ErrInvalidCodepoint]. *)
Theorem Encode_invalid_utf8 (unicode_ToUpper : rune → rune)
    (name : string) (c : codecMap8Bit) (data : string) :
  codecsMap package !! name = Some c →
  let steps := range_string_steps data in
  let result := Encode unicode_ToUpper data name in
  EncodeMap c !! utf8.RuneError = None
  ∧ sum_list steps.*2 = String.length data
  ∧ String.length result.1 = length steps
  ∧ (∀ i, steps !! i = Some (utf8.RuneError, 1%nat) →
          list_ascii_of_string result.1 !! i = Some "?"%char)
  ∧ byte_to_Z "?"%char = 0x3F
  ∧ (ValidString data = false → result.2 = Some ErrInvalidCodepoint).
Proof.
  intros Hreg steps result. subst steps result.
  pose proof (registered_table_codec name c Hreg) as [_ Hrep].
  destruct (facade_delegates unicode_ToUpper name c Hreg) as (-> & _).
  rewrite codec_Encode_spec. cbn [fst snd].
  rewrite (string_length_list (string_of_list_ascii _)),
    list_ascii_of_string_of_list_ascii.
  unfold range_string. rewrite !length_fmap.
  split_and!; try done.
  - rewrite string_length_list. apply range_list_widths.
  - intros i Hi. rewrite !list_lookup_fmap, Hi. cbn.
    unfold encode_emit. by rewrite Hrep.
  - intros Hv. apply status_Some, Exists_exists.
    unfold ValidString in Hv.
    apply not_true_iff_false in Hv. rewrite forallb_forall in Hv.
    exists utf8.RuneError. split.
    + destruct (decide (utf8.RuneError ∈ (range_string_steps data).*1)) as [|Hn];
        [done|].
      exfalso. apply Hv. intros [r w] Hin. apply negb_true_iff, andb_false_iff.
      left. apply Z.eqb_neq. cbn. intros ->. apply Hn.
      apply list_elem_of_fmap. exists (utf8.RuneError, w). split; [done|].
      by apply list_elem_of_In.
    + unfold mapped_rune. apply bool_decide_eq_false. rewrite Hrep.
      by intros [? ?].
Qed.

Lemma Encode_invalid_utf8_witness :
  let data := String "A" (String "226" (String "130" EmptyString)) in
  String.length (Encode id data "ISO-8859-2").1 = 3%nat
  ∧ list_ascii_of_string (Encode id data "ISO-8859-2").1 !! 1%nat = Some "?"%char
  ∧ list_ascii_of_string (Encode id data "ISO-8859-2").1 !! 2%nat = Some "?"%char
  ∧ (Encode id data "ISO-8859-2").2 = Some ErrInvalidCodepoint.
Proof.
  intros data.
  pose proof (Encode_invalid_utf8 id "ISO-8859-2" iso_8859_2.newCodec data eq_refl)
    as H.
  cbv zeta in H. destruct H as (_ & _ & Hlen & Hsub & _ & Herr).
  split_and!.
  - exact Hlen.
  - apply Hsub. reflexivity.
  - apply Hsub. reflexivity.
  - apply Herr. reflexivity.
Defined.

(** ** The examples of the specification *)

(** The byte A1 is U+0104 under ISO-8859-2 and U+1E02 under ISO-8859-14. *)
Example decode_A1 :
  range_string (Decode id (String "161" EmptyString) "ISO-8859-2").1 = [0x0104]
  ∧ (Decode id (String "161" EmptyString) "ISO-8859-2").2 = None
  ∧ range_string (Decode id (String "161" EmptyString) "ISO-8859-14").1 = [0x1E02]
  ∧ (Decode id (String "161" EmptyString) "ISO-8859-14").2 = None.
Proof. by vm_compute. Qed.

(** Empty input gives empty output and no error. *)
Example empty_input :
  Encode id "" "ISO-8859-2" = ("", None) ∧ Decode id "" "ISO-8859-2" = ("", None).
Proof. by vm_compute. Qed.
